(** * Multi-armed bandit: environment, learning loop and three policies

    A shallow embedding of [main.py].  numpy index values are integers
    and the process-wide pseudo-random generator is an explicit oracle
    that is threaded through every call that consumes randomness.

    The program is embedded twice.  The first embedding reads Python
    floats as real numbers: it carries the statements about control
    flow, bookkeeping, order and the use of randomness.  The second,
    module [F64], performs every float operation in IEEE 754 binary64 as
    the interpreter does: it carries the statements about the values the
    program computes (regret, estimates, exploration threshold, UCB
    scores), where rounding matters. *)

From Stdlib Require Floats Uint63.
From Stdlib Require Import Reals ZArith Bool List Lia Lra Psatz.
Import ListNotations.

Set Implicit Arguments.

(** ** Exceptions and the state-and-error monad *)

Inductive exn : Type :=
| ValueError
| IndexError
| NotImplementedError.

Inductive result (A : Type) : Type :=
| Ok (a : A)
| Raise (e : exn).

Arguments Ok {A} a.
Arguments Raise {A} e.

(** The world outside the objects: the generator of [np.random], split
    into the floats it hands out and the raw integers behind [randint],
    each with a cursor; and a ghost log of every successful pull
    [(arm, reward)], which no code reads. *)
Record World : Type := mkWorld {
  floats : nat -> R;
  fpos : nat;
  ints : nat -> Z;
  ipos : nat;
  pulls : list (Z * Z)
}.

Definition M (A : Type) : Type := World -> result A * World.

Definition ret {A} (a : A) : M A := fun w => (Ok a, w).

Definition raise {A} (e : exn) : M A := fun w => (Raise e, w).

Definition bind {A B} (m : M A) (f : A -> M B) : M B :=
  fun w =>
    match m w with
    | (Ok a, w') => f a w'
    | (Raise e, w') => (Raise e, w')
    end.

Definition lift {A} (r : result A) : M A := fun w => (r, w).

Definition rbind {A B} (r : result A) (f : A -> result B) : result B :=
  match r with
  | Ok a => f a
  | Raise e => Raise e
  end.

Declare Scope py_scope.
Delimit Scope py_scope with py.
Notation "x <- m ;; k" := (bind m (fun x => k))
  (at level 61, m at next level, right associativity) : py_scope.
Notation "x <~ r ;; k" := (rbind r (fun x => k))
  (at level 61, r at next level, right associativity) : py_scope.

Open Scope py_scope.

(** ** The numpy and list primitives the program calls *)

Open Scope bool_scope.
Open Scope Z_scope.

(** [a[k]] on an array of length [n]: indices [-n .. -1] count from the
    end, anything outside [-n .. n-1] raises [IndexError]. *)
Definition norm_index (n k : Z) : option nat :=
  if (0 <=? k) && (k <? n) then Some (Z.to_nat k)
  else if (- n <=? k) && (k <? 0) then Some (Z.to_nat (k + n))
  else None.

Definition np_getitem {A} (a : list A) (k : Z) : result A :=
  match norm_index (Z.of_nat (length a)) k with
  | Some i =>
      match nth_error a i with
      | Some x => Ok x
      | None => Raise IndexError
      end
  | None => Raise IndexError
  end.

Fixpoint list_set {A} (a : list A) (i : nat) (v : A) : list A :=
  match a, i with
  | [], _ => []
  | _ :: t, O => v :: t
  | x :: t, S j => x :: list_set t j v
  end.

Definition np_setitem {A} (a : list A) (k : Z) (v : A) : result (list A) :=
  match norm_index (Z.of_nat (length a)) k with
  | Some i => Ok (list_set a i v)
  | None => Raise IndexError
  end.

(** [np.argmax]: index of the first occurrence of the maximum;
    [ValueError] on an empty array. *)
Fixpoint argmax_from (a : list R) (i best : Z) (bv : R) : Z :=
  match a with
  | [] => best
  | x :: t =>
      if Rlt_dec bv x then argmax_from t (i + 1) i x
      else argmax_from t (i + 1) best bv
  end.

Definition np_argmax (a : list R) : result Z :=
  match a with
  | [] => Raise ValueError
  | x :: t => Ok (argmax_from t 1 0 x)
  end.

(** [np.zeros(n)]: a negative dimension is a [ValueError]. *)
Definition np_zeros (n : Z) : result (list R) :=
  if n <? 0 then Raise ValueError else Ok (repeat 0%R (Z.to_nat n)).

(** Python's [[x] * n]: empty for [n <= 0]. *)
Definition list_mul {A} (x : A) (n : Z) : list A := repeat x (Z.to_nat n).

(** One float of the generator: [np.random.rand()], [np.random.random()]. *)
Definition np_random_random : M R :=
  fun w => (Ok (floats w (fpos w)),
            mkWorld (floats w) (S (fpos w)) (ints w) (ipos w) (pulls w)).

Definition np_random_rand : M R := np_random_random.

Fixpoint draw_floats (n : nat) : M (list R) :=
  match n with
  | O => ret []
  | S m => x <- np_random_random ;; xs <- draw_floats m ;; ret (x :: xs)
  end.

(** [np.random.uniform(size=n)]: a negative size is a [ValueError]. *)
Definition np_random_uniform (size : Z) : M (list R) :=
  if size <? 0 then raise ValueError else draw_floats (Z.to_nat size).

(** [np.random.randint(low, high)]: an integer of [[low, high)];
    [ValueError] when the range is empty. *)
Definition randint_value (low high : Z) (w : World) : Z :=
  low + ints w (ipos w) mod (high - low).

Definition np_random_randint (low high : Z) : M Z :=
  fun w =>
    if high <=? low then (Raise ValueError, w)
    else (Ok (randint_value low high w),
          mkWorld (floats w) (fpos w) (ints w) (S (ipos w)) (pulls w)).

Definition log_pull (k r : Z) : M unit :=
  fun w => (Ok tt,
            mkWorld (floats w) (fpos w) (ints w) (ipos w) (pulls w ++ [(k, r)])).

(** ** class BernoulliBandit *)

Record BernoulliBandit : Type := mkBandit {
  probs : list R;
  best_idx : Z;
  best_prob : R;
  K : Z
}.

Definition BernoulliBandit_init (K : Z) : M BernoulliBandit :=
  ps <- np_random_uniform K ;;
  i <- lift (np_argmax ps) ;;
  p <- lift (np_getitem ps i) ;;
  ret (mkBandit ps i p K).

Definition step (b : BernoulliBandit) (k : Z) : M Z :=
  ran <- np_random_rand ;;
  p <- lift (np_getitem (probs b) k) ;;
  let r := if Rlt_dec ran p then 1 else 0 in
  _ <- log_pull k r ;;
  ret r.

(** ** class Solver and its three subclasses *)

(** The fields a subclass adds to [Solver]; [Abstract] is the base class
    itself, whose [run_one_step] is not implemented. *)
Inductive Policy : Type :=
| Abstract
| EpsilonGreedy (epsilon : R) (estimates : list R)
| DecayingEpsilonGreedy (estimates : list R) (total_count : Z)
| UCB (total_count : Z) (estimates : list R) (coef : R).

Record Solver : Type := mkSolver {
  bandit : BernoulliBandit;
  counts : list R;
  regret : R;
  actions : list Z;
  regrets : list R;
  policy : Policy
}.

Definition Solver_init (b : BernoulliBandit) : result Solver :=
  cs <~ np_zeros (K b) ;;
  Ok (mkSolver b cs 0%R [] [] Abstract).

Definition with_policy (s : Solver) (p : Policy) : Solver :=
  mkSolver (bandit s) (counts s) (regret s) (actions s) (regrets s) p.

Definition EpsilonGreedy_init (b : BernoulliBandit) (epsilon init_prob : R)
  : result Solver :=
  s <~ Solver_init b ;;
  Ok (with_policy s (EpsilonGreedy epsilon (list_mul init_prob (K b)))).

Definition DecayingEpsilonGreedy_init (b : BernoulliBandit) (init_prob : R)
  : result Solver :=
  s <~ Solver_init b ;;
  Ok (with_policy s (DecayingEpsilonGreedy (list_mul init_prob (K b)) 0)).

Definition UCB_init (b : BernoulliBandit) (coef init_prob : R)
  : result Solver :=
  s <~ Solver_init b ;;
  Ok (with_policy s (UCB 0 (list_mul init_prob (K b)) coef)).

Definition estimates_of (s : Solver) : list R :=
  match policy s with
  | Abstract => []
  | EpsilonGreedy _ e => e
  | DecayingEpsilonGreedy e _ => e
  | UCB _ e _ => e
  end.

(** [self.regret += best_prob - probs[k]; self.regrets.append(self.regret)],
    with the sum taken over the reals; [F64.update_regret] rounds it. *)
Definition update_regret (s : Solver) (k : Z) : result Solver :=
  p <~ np_getitem (probs (bandit s)) k ;;
  let rg := (regret s + (best_prob (bandit s) - p))%R in
  Ok (mkSolver (bandit s) (counts s) rg (actions s) (regrets s ++ [rg])
        (policy s)).

(** The update every policy performs after its pull:
    [estimates[k] += 1. / (counts[k] + 1) * (r - estimates[k])], over the
    reals; [F64.incremental_mean] is the rounded computation. *)
Definition incremental_mean (e c : R) (r : Z) : R :=
  (e + 1 / (c + 1) * (IZR r - e))%R.

Definition update_estimates (cs es : list R) (k r : Z) : result (list R) :=
  e <~ np_getitem es k ;;
  c <~ np_getitem cs k ;;
  np_setitem es k (incremental_mean e c r).

(** The threshold of the decaying policy at its round [t], over the
    reals; [F64.decaying_epsilon] is the double the code compares with. *)
Definition decaying_epsilon (t : Z) : R := (0.01 - 1 / IZR t)%R.

(** The upper confidence bound of one arm, and of all arms, over the
    reals; [F64.ucb_score] is the rounded score that [np.argmax] sees. *)
Definition ucb_score (coef : R) (t : Z) (e c : R) : R :=
  (e + coef * sqrt (ln (IZR t) / (2 * (c + 1))))%R.

Fixpoint ucb_scores (coef : R) (t : Z) (es cs : list R) : list R :=
  match es, cs with
  | e :: es', c :: cs' => ucb_score coef t e c :: ucb_scores coef t es' cs'
  | _, _ => []
  end.

Definition run_one_step (s : Solver) : M (Z * Solver) :=
  match policy s with
  | Abstract => raise NotImplementedError
  | EpsilonGreedy epsilon es =>
      u <- np_random_random ;;
      k <- (if Rlt_dec u epsilon
            then np_random_randint 0 (K (bandit s))
            else lift (np_argmax es)) ;;
      r <- step (bandit s) k ;;
      es' <- lift (update_estimates (counts s) es k r) ;;
      ret (k, with_policy s (EpsilonGreedy epsilon es'))
  | DecayingEpsilonGreedy es total =>
      let total' := total + 1 in
      u <- np_random_random ;;
      k <- (if Rlt_dec u (decaying_epsilon total')
            then np_random_randint 0 (K (bandit s))
            else lift (np_argmax es)) ;;
      r <- step (bandit s) k ;;
      es' <- lift (update_estimates (counts s) es k r) ;;
      ret (k, with_policy s (DecayingEpsilonGreedy es' total'))
  | UCB total es coef =>
      let total' := total + 1 in
      let ucb := ucb_scores coef total' es (counts s) in
      k <- lift (np_argmax ucb) ;;
      r <- step (bandit s) k ;;
      es' <- lift (update_estimates (counts s) es k r) ;;
      ret (k, with_policy s (UCB total' es' coef))
  end.

(** One iteration of the loop of [run]. *)
Definition run_round (s : Solver) : M Solver :=
  ks <- run_one_step s ;;
  let '(k, s1) := ks in
  c <- lift (np_getitem (counts s1) k) ;;
  cs <- lift (np_setitem (counts s1) k (c + 1)%R) ;;
  let s2 := mkSolver (bandit s1) cs (regret s1) (actions s1 ++ [k])
              (regrets s1) (policy s1) in
  lift (update_regret s2 k).

Fixpoint for_range {St} (n : nat) (body : St -> M St) (s : St) : M St :=
  match n with
  | O => ret s
  | S m => s' <- body s ;; for_range m body s'
  end.

(** [for _ in range(num_steps)]: nothing runs when [num_steps <= 0]. *)
Definition run (s : Solver) (num_steps : Z) : M Solver :=
  for_range (Z.to_nat num_steps) run_round s.

(** The configuration of a policy, as the driver passes it to the
    constructor of the subclass. *)
Inductive PolicyChoice : Type :=
| ChooseEpsilonGreedy (epsilon init_prob : R)
| ChooseDecayingEpsilonGreedy (init_prob : R)
| ChooseUCB (coef init_prob : R).

Definition new_solver (b : BernoulliBandit) (c : PolicyChoice)
  : result Solver :=
  match c with
  | ChooseEpsilonGreedy epsilon init_prob =>
      EpsilonGreedy_init b epsilon init_prob
  | ChooseDecayingEpsilonGreedy init_prob =>
      DecayingEpsilonGreedy_init b init_prob
  | ChooseUCB coef init_prob => UCB_init b coef init_prob
  end.

Definition init_prob_of (c : PolicyChoice) : R :=
  match c with
  | ChooseEpsilonGreedy _ p => p
  | ChooseDecayingEpsilonGreedy p => p
  | ChooseUCB _ p => p
  end.

(** Several calls of [run] on the same object, one after the other. *)
Fixpoint run_calls (s : Solver) (calls : list Z) : M Solver :=
  match calls with
  | [] => ret s
  | n :: rest => s' <- run s n ;; run_calls s' rest
  end.

(** The number of rounds a sequence of calls of [run] executes. *)
Definition rounds_executed (calls : list Z) : nat :=
  fold_right (fun n acc => (Z.to_nat n + acc)%nat) 0%nat calls.

(** ** Vocabulary of the statements *)

Definition prob_at (b : BernoulliBandit) (k : Z) : R :=
  nth (Z.to_nat k) (probs b) 0%R.

(** [n] is the first position of the maximum of [l]. *)
Definition first_max (l : list R) (n : nat) : Prop :=
  (n < length l)%nat /\
  (forall j, (j < length l)%nat -> (nth j l 0 <= nth n l 0)%R) /\
  (forall j, (j < n)%nat -> (nth j l 0 < nth n l 0)%R).


(** The rewards the log holds for arm [a], oldest first. *)
Fixpoint rewards_of (a : Z) (log : list (Z * Z)) : list Z :=
  match log with
  | [] => []
  | (k, r) :: t => if Z.eqb k a then r :: rewards_of a t else rewards_of a t
  end.

Definition Zsum (l : list Z) : Z := fold_right Z.add 0 l.

(** Every float of the generator lies in [[0, 1)]. *)
Definition unit_floats (w : World) : Prop :=
  forall i, (0 <= floats w i < 1)%R.

(** What the constructor of the environment establishes. *)
Record bandit_ok (b : BernoulliBandit) : Prop := mk_bandit_ok {
  bk_pos : 1 <= K b;
  bk_len : Z.of_nat (length (probs b)) = K b;
  bk_idx : 0 <= best_idx b;
  bk_first : first_max (probs b) (Z.to_nat (best_idx b));
  bk_best : best_prob b = prob_at b (best_idx b)
}.

Definition total_count_of (s : Solver) : Z :=
  match policy s with
  | Abstract | EpsilonGreedy _ _ => 0
  | DecayingEpsilonGreedy _ t => t
  | UCB t _ _ => t
  end.

(** What holds of a solver object between two rounds. *)
Record solver_ok (s : Solver) : Prop := mk_solver_ok {
  sk_bandit : bandit_ok (bandit s);
  sk_counts : Z.of_nat (length (counts s)) = K (bandit s);
  sk_estimates : Z.of_nat (length (estimates_of s)) = K (bandit s);
  sk_nonneg : Forall (fun c => (0 <= c)%R) (counts s);
  sk_concrete : policy s <> Abstract
}.

(** The policy after a round: same class, same hyperparameters, the
    round counter advanced, the estimates replaced by [es]. *)
Definition policy_next (p : Policy) (es : list R) : Policy :=
  match p with
  | Abstract => Abstract
  | EpsilonGreedy epsilon _ => EpsilonGreedy epsilon es
  | DecayingEpsilonGreedy _ t => DecayingEpsilonGreedy es (t + 1)
  | UCB t _ coef => UCB (t + 1) es coef
  end.

(** The effect of one round in which arm [k] was pulled with reward [r]. *)
Definition after_round (s : Solver) (k r : Z) : Solver :=
  let i := Z.to_nat k in
  let rg := (regret s + (best_prob (bandit s) - prob_at (bandit s) k))%R in
  mkSolver (bandit s)
    (list_set (counts s) i (nth i (counts s) 0 + 1)%R)
    rg (actions s ++ [k]) (regrets s ++ [rg])
    (policy_next (policy s)
       (list_set (estimates_of s) i
          (incremental_mean (nth i (estimates_of s) 0%R)
             (nth i (counts s) 0%R) r))).

Definition same_pulls (w w' : World) : Prop :=
  floats w' = floats w /\ ints w' = ints w /\ pulls w' = pulls w.

Definition after_pull (w w' : World) (k r : Z) : Prop :=
  floats w' = floats w /\ ints w' = ints w /\
  pulls w' = pulls w ++ [(k, r)].

(** The arm a policy picks in state [s] when the generator is at [w]. *)
Definition selects (s : Solver) (w : World) (k : Z) : Prop :=
  let u := floats w (fpos w) in
  let Kb := K (bandit s) in
  match policy s with
  | Abstract => False
  | EpsilonGreedy epsilon es =>
      if Rlt_dec u epsilon then k = randint_value 0 Kb w
      else np_argmax es = Ok k
  | DecayingEpsilonGreedy es t =>
      if Rlt_dec u (decaying_epsilon (t + 1)) then k = randint_value 0 Kb w
      else np_argmax es = Ok k
  | UCB t es coef => np_argmax (ucb_scores coef (t + 1) es (counts s)) = Ok k
  end.

(** The estimates after arm [k] gave reward [r]. *)
Definition estimates_after (s : Solver) (k r : Z) : list R :=
  let i := Z.to_nat k in
  list_set (estimates_of s) i
    (incremental_mean (nth i (estimates_of s) 0%R) (nth i (counts s) 0%R) r).

(** A small concrete run of the generator, used to exercise the
    statements: the floats are 1/4, 1/2, 1/8, 1/8, ... and every raw
    integer is 5. *)
Definition demo_floats (i : nat) : R :=
  match i with
  | O => (1 / 4)%R
  | S O => (1 / 2)%R
  | _ => (1 / 8)%R
  end.

Definition demo_world : World := mkWorld demo_floats 0 (fun _ => 5) 0 [].

Definition demo_bandit : BernoulliBandit :=
  mkBandit [(1 / 4)%R; (1 / 2)%R] 1 (1 / 2)%R 2.

Definition demo_world_2 : World := mkWorld demo_floats 2 (fun _ => 5) 0 [].

Definition demo_bandit_1 : BernoulliBandit := mkBandit [(1 / 4)%R] 0 (1 / 4)%R 1.

Definition demo_world_1 : World := mkWorld demo_floats 1 (fun _ => 5) 0 [].

(** A UCB solver as [UCB(demo_bandit, 1)] creates it. *)
Definition demo_solver : Solver :=
  mkSolver demo_bandit [0%R; 0%R] 0%R [] [] (UCB 0 [1%R; 1%R] 1%R).

(** The base-class object [Solver(demo_bandit)]. *)
Definition demo_base_solver : Solver :=
  mkSolver demo_bandit [0%R; 0%R] 0%R [] [] Abstract.

(** ** Loop invariants

    [t] is the number of rounds executed since the solver was created. *)


Definition binary (r : Z) : Prop := r = 0 \/ r = 1.



(** With a single arm: only arm 0 is played and no regret accrues. *)
Definition single_arm_inv (t : nat) (s : Solver) (w : World) : Prop :=
  K (bandit s) = 1 /\
  actions s = repeat 0 t /\ regrets s = repeat 0%R t /\ regret s = 0%R.

(** The round counter of the policies that keep one, with the
    generator's content unchanged since [w_start]. *)
Definition counter_inv (w_start : World) (t : nat) (s : Solver) (w : World)
  : Prop :=
  floats w = floats w_start /\
  match policy s with
  | DecayingEpsilonGreedy _ total => total = Z.of_nat t
  | UCB total _ _ => total = Z.of_nat t
  | _ => True
  end.

(** The class and the hyperparameters of a solver never change. *)
Definition same_class (p q : Policy) : Prop :=
  match p, q with
  | Abstract, Abstract => True
  | EpsilonGreedy e _, EpsilonGreedy e' _ => e = e'
  | DecayingEpsilonGreedy _ _, DecayingEpsilonGreedy _ _ => True
  | UCB _ _ c, UCB _ _ c' => c = c'
  | _, _ => False
  end.

Definition class_inv (p0 : Policy) (w_start : World) (t : nat) (s : Solver)
           (w : World) : Prop :=
  same_class p0 (policy s) /\ counter_inv w_start t s w.

(** ** The world after a round

    What one round does to the generator, read off [run_one_step] and
    [step]: the two epsilon-greedy classes draw one float to decide
    between exploring and exploiting, every class draws one float for
    the pull, and [randint] is called only when exploring. *)

Definition selection_floats (p : Policy) : nat :=
  match p with
  | EpsilonGreedy _ _ | DecayingEpsilonGreedy _ _ => 1%nat
  | Abstract | UCB _ _ _ => 0%nat
  end.

Definition explores (s : Solver) (w : World) : bool :=
  let u := floats w (fpos w) in
  match policy s with
  | EpsilonGreedy epsilon _ => if Rlt_dec u epsilon then true else false
  | DecayingEpsilonGreedy _ t =>
      if Rlt_dec u (decaying_epsilon (t + 1)) then true else false
  | Abstract | UCB _ _ _ => false
  end.

Definition reward_at (s : Solver) (w : World) (k : Z) : Z :=
  if Rlt_dec (floats w (fpos w + selection_floats (policy s))%nat)
       (prob_at (bandit s) k)
  then 1 else 0.

Definition world_after_round (s : Solver) (w : World) (k : Z) : World :=
  mkWorld (floats w)
    (S (fpos w + selection_floats (policy s)))
    (ints w)
    (if explores s w then S (ipos w) else ipos w)
    (pulls w ++ [(k, reward_at s w k)]).

(** Randomness used up after [t] rounds of a solver of class [p0]. *)
Definition consumption_inv (p0 : Policy) (w_start : World) (t : nat)
           (s : Solver) (w : World) : Prop :=
  same_class p0 (policy s) /\
  floats w = floats w_start /\ ints w = ints w_start /\
  fpos w = (fpos w_start + t * S (selection_floats p0))%nat /\
  (ipos w_start <= ipos w <= ipos w_start + t * selection_floats p0)%nat.

(** Pull counts are the multiplicities of the arms in the history, and
    an arm that was never played keeps the prior. *)
Definition bookkeeping_inv (prior : R) (t : nat) (s : Solver) (w : World)
  : Prop :=
  Forall (fun k => 0 <= k < K (bandit s)) (actions s) /\
  forall a, 0 <= a < K (bandit s) ->
    nth (Z.to_nat a) (counts s) 0%R
    = INR (count_occ Z.eq_dec (actions s) a) /\
    (~ In a (actions s) -> nth (Z.to_nat a) (estimates_of s) 0%R = prior).

(** With [epsilon >= 1] every action comes from [randint]. *)
Definition always_explore_inv (w_start : World) (t : nat) (s : Solver)
           (w : World) : Prop :=
  floats w = floats w_start /\ ints w = ints w_start /\
  ipos w = (ipos w_start + t)%nat /\
  actions s
  = map (fun i => ints w_start (ipos w_start + i)%nat mod K (bandit s))
      (seq 0 t).

(** With [epsilon <= 0] no action comes from [randint]. *)
Definition never_explore_inv (w_start : World) (t : nat) (s : Solver)
           (w : World) : Prop :=
  floats w = floats w_start /\ ipos w = ipos w_start.

(** The result of a constructed-then-run experiment, for statements
    about every outcome of a call. *)
Definition outcome_of {A} (x : result A * World) : result A := fst x.

(** * The same program in binary64 arithmetic

    The definitions above read every float of the program as a real
    number; they serve the statements about order and bookkeeping, which
    rounding does not disturb.  The module below is the program again
    with its arithmetic as the machine performs it: IEEE 754 binary64
    with rounding to nearest, which is what the kernel's primitive
    floats compute.  It serves the statements about the values
    themselves.

    Pull counts are whole numbers (the code keeps them in a float array,
    which holds every whole number below 2^53 exactly); they are kept as
    integers and converted where the code computes with them.  [np.log]
    belongs to the platform's math library and is a parameter.  Priors
    and hyperparameters are floats, as with the defaults of the code. *)

Module F64.

Import PrimFloat.

Definition float : Set := PrimFloat.float.

(** A Python integer used in float arithmetic: [float(z)], correctly
    rounded, for [|z| < 2^63]. *)
Definition of_int (z : Z) : float :=
  if z <? 0 then PrimFloat.opp (PrimFloat.of_uint63 (Uint63.of_Z (- z)))
  else PrimFloat.of_uint63 (Uint63.of_Z z).

Record World : Type := mkWorld {
  floats : nat -> float;
  fpos : nat;
  ints : nat -> Z;
  ipos : nat;
  pulls : list (Z * Z)
}.

Definition M (A : Type) : Type := World -> result A * World.

Definition ret {A} (a : A) : M A := fun w => (Ok a, w).

Definition raise {A} (e : exn) : M A := fun w => (Raise e, w).

Definition bind {A B} (m : M A) (f : A -> M B) : M B :=
  fun w =>
    match m w with
    | (Ok a, w') => f a w'
    | (Raise e, w') => (Raise e, w')
    end.

Definition lift {A} (r : result A) : M A := fun w => (r, w).

Declare Scope f64_scope.
Delimit Scope f64_scope with f64.
Notation "x <- m ;; k" := (bind m (fun x => k))
  (at level 61, m at next level, right associativity) : f64_scope.

Local Open Scope f64_scope.

(** [np.argmax] on a float array: the first position of the maximum,
    where a NaN counts as maximal and ends the scan. *)
Fixpoint argmax_from (a : list float) (i best : Z) (bv : float) : Z :=
  match a with
  | [] => best
  | x :: t =>
      if (x <=? bv)%float then argmax_from t (i + 1) best bv
      else if PrimFloat.is_nan x then i
      else argmax_from t (i + 1) i x
  end.

Definition np_argmax (a : list float) : result Z :=
  match a with
  | [] => Raise ValueError
  | x :: t => Ok (if PrimFloat.is_nan x then 0 else argmax_from t 1 0 x)
  end.

(** [np.zeros(n)], its entries kept as the integers they are. *)
Definition np_zeros (n : Z) : result (list Z) :=
  if n <? 0 then Raise ValueError else Ok (repeat 0 (Z.to_nat n)).

Definition np_random_random : M float :=
  fun w => (Ok (floats w (fpos w)),
            mkWorld (floats w) (S (fpos w)) (ints w) (ipos w) (pulls w)).

Definition np_random_rand : M float := np_random_random.

Fixpoint draw_floats (n : nat) : M (list float) :=
  match n with
  | O => ret []
  | S m => x <- np_random_random ;; xs <- draw_floats m ;; ret (x :: xs)
  end.

Definition np_random_uniform (size : Z) : M (list float) :=
  if size <? 0 then raise ValueError else draw_floats (Z.to_nat size).

Definition randint_value (low high : Z) (w : World) : Z :=
  low + ints w (ipos w) mod (high - low).

Definition np_random_randint (low high : Z) : M Z :=
  fun w =>
    if high <=? low then (Raise ValueError, w)
    else (Ok (randint_value low high w),
          mkWorld (floats w) (fpos w) (ints w) (S (ipos w)) (pulls w)).

Definition log_pull (k r : Z) : M unit :=
  fun w => (Ok tt,
            mkWorld (floats w) (fpos w) (ints w) (ipos w) (pulls w ++ [(k, r)])).

(** ** class BernoulliBandit *)

Record BernoulliBandit : Type := mkBandit {
  probs : list float;
  best_idx : Z;
  best_prob : float;
  K : Z
}.

Definition BernoulliBandit_init (K : Z) : M BernoulliBandit :=
  ps <- np_random_uniform K ;;
  i <- lift (np_argmax ps) ;;
  p <- lift (np_getitem ps i) ;;
  ret (mkBandit ps i p K).

Definition step (b : BernoulliBandit) (k : Z) : M Z :=
  ran <- np_random_rand ;;
  p <- lift (np_getitem (probs b) k) ;;
  let r := if (ran <? p)%float then 1 else 0 in
  _ <- log_pull k r ;;
  ret r.

(** ** class Solver and its three subclasses *)

Inductive Policy : Type :=
| Abstract
| EpsilonGreedy (epsilon : float) (estimates : list float)
| DecayingEpsilonGreedy (estimates : list float) (total_count : Z)
| UCB (total_count : Z) (estimates : list float) (coef : float).

Record Solver : Type := mkSolver {
  bandit : BernoulliBandit;
  counts : list Z;
  regret : float;
  actions : list Z;
  regrets : list float;
  policy : Policy
}.

Definition Solver_init (b : BernoulliBandit) : result Solver :=
  cs <~ np_zeros (K b) ;;
  Ok (mkSolver b cs PrimFloat.zero [] [] Abstract).

Definition with_policy (s : Solver) (p : Policy) : Solver :=
  mkSolver (bandit s) (counts s) (regret s) (actions s) (regrets s) p.

Definition EpsilonGreedy_init (b : BernoulliBandit) (epsilon init_prob : float)
  : result Solver :=
  s <~ Solver_init b ;;
  Ok (with_policy s (EpsilonGreedy epsilon (list_mul init_prob (K b)))).

Definition DecayingEpsilonGreedy_init (b : BernoulliBandit)
           (init_prob : float) : result Solver :=
  s <~ Solver_init b ;;
  Ok (with_policy s (DecayingEpsilonGreedy (list_mul init_prob (K b)) 0)).

Definition UCB_init (b : BernoulliBandit) (coef init_prob : float)
  : result Solver :=
  s <~ Solver_init b ;;
  Ok (with_policy s (UCB 0 (list_mul init_prob (K b)) coef)).

Definition estimates_of (s : Solver) : list float :=
  match policy s with
  | Abstract => []
  | EpsilonGreedy _ e => e
  | DecayingEpsilonGreedy e _ => e
  | UCB _ e _ => e
  end.

Definition total_count_of (s : Solver) : Z :=
  match policy s with
  | Abstract | EpsilonGreedy _ _ => 0
  | DecayingEpsilonGreedy _ t => t
  | UCB t _ _ => t
  end.

(** [self.regret += best_prob - probs[k]; self.regrets.append(self.regret)] *)
Definition update_regret (s : Solver) (k : Z) : result Solver :=
  p <~ np_getitem (probs (bandit s)) k ;;
  let rg := (regret s + (best_prob (bandit s) - p))%float in
  Ok (mkSolver (bandit s) (counts s) rg (actions s) (regrets s ++ [rg])
        (policy s)).

(** [estimates[k] += 1. / (counts[k] + 1) * (r - estimates[k])], with
    count [c] and reward [r]. *)
Definition incremental_mean (e : float) (c r : Z) : float :=
  (e + PrimFloat.one / of_int (c + 1) * (of_int r - e))%float.

Definition update_estimates (cs : list Z) (es : list float) (k r : Z)
  : result (list float) :=
  e <~ np_getitem es k ;;
  c <~ np_getitem cs k ;;
  np_setitem es k (incremental_mean e c r).

(** The literal [0.01]: the float nearest to one hundredth. *)
Definition one_hundredth : float := 0x1.47ae147ae147bp-7%float.

(** [0.01 - 1 / total_count] at [total_count = t]. *)
Definition decaying_epsilon (t : Z) : float :=
  (one_hundredth - of_int 1 / of_int t)%float.

(** [estimates + coef * np.sqrt(np.log(total_count) / (2 * (counts + 1)))],
    one entry and all entries. *)
Definition ucb_score (np_log : float -> float) (coef : float) (t : Z)
           (e : float) (c : Z) : float :=
  (e + coef * PrimFloat.sqrt (np_log (of_int t)
                              / (of_int 2 * of_int (c + 1))))%float.

Fixpoint ucb_scores (np_log : float -> float) (coef : float) (t : Z)
         (es : list float) (cs : list Z) : list float :=
  match es, cs with
  | e :: es', c :: cs' =>
      ucb_score np_log coef t e c :: ucb_scores np_log coef t es' cs'
  | _, _ => []
  end.

Definition run_one_step (np_log : float -> float) (s : Solver)
  : M (Z * Solver) :=
  match policy s with
  | Abstract => raise NotImplementedError
  | EpsilonGreedy epsilon es =>
      u <- np_random_random ;;
      k <- (if (u <? epsilon)%float
            then np_random_randint 0 (K (bandit s))
            else lift (np_argmax es)) ;;
      r <- step (bandit s) k ;;
      es' <- lift (update_estimates (counts s) es k r) ;;
      ret (k, with_policy s (EpsilonGreedy epsilon es'))
  | DecayingEpsilonGreedy es total =>
      let total' := total + 1 in
      u <- np_random_random ;;
      k <- (if (u <? decaying_epsilon total')%float
            then np_random_randint 0 (K (bandit s))
            else lift (np_argmax es)) ;;
      r <- step (bandit s) k ;;
      es' <- lift (update_estimates (counts s) es k r) ;;
      ret (k, with_policy s (DecayingEpsilonGreedy es' total'))
  | UCB total es coef =>
      let total' := total + 1 in
      let ucb := ucb_scores np_log coef total' es (counts s) in
      k <- lift (np_argmax ucb) ;;
      r <- step (bandit s) k ;;
      es' <- lift (update_estimates (counts s) es k r) ;;
      ret (k, with_policy s (UCB total' es' coef))
  end.

Definition run_round (np_log : float -> float) (s : Solver) : M Solver :=
  ks <- run_one_step np_log s ;;
  let '(k, s1) := ks in
  c <- lift (np_getitem (counts s1) k) ;;
  cs <- lift (np_setitem (counts s1) k (c + 1)) ;;
  let s2 := mkSolver (bandit s1) cs (regret s1) (actions s1 ++ [k])
              (regrets s1) (policy s1) in
  lift (update_regret s2 k).

Fixpoint for_range {St} (n : nat) (body : St -> M St) (s : St) : M St :=
  match n with
  | O => ret s
  | S m => s' <- body s ;; for_range m body s'
  end.

Definition run (np_log : float -> float) (s : Solver) (num_steps : Z)
  : M Solver :=
  for_range (Z.to_nat num_steps) (run_round np_log) s.

Inductive PolicyChoice : Type :=
| ChooseEpsilonGreedy (epsilon init_prob : float)
| ChooseDecayingEpsilonGreedy (init_prob : float)
| ChooseUCB (coef init_prob : float).

Definition new_solver (b : BernoulliBandit) (c : PolicyChoice)
  : result Solver :=
  match c with
  | ChooseEpsilonGreedy epsilon init_prob =>
      EpsilonGreedy_init b epsilon init_prob
  | ChooseDecayingEpsilonGreedy init_prob =>
      DecayingEpsilonGreedy_init b init_prob
  | ChooseUCB coef init_prob => UCB_init b coef init_prob
  end.

Definition init_prob_of (c : PolicyChoice) : float :=
  match c with
  | ChooseEpsilonGreedy _ p => p
  | ChooseDecayingEpsilonGreedy p => p
  | ChooseUCB _ p => p
  end.

Fixpoint run_calls (np_log : float -> float) (s : Solver) (calls : list Z)
  : M Solver :=
  match calls with
  | [] => ret s
  | n :: rest => s' <- run np_log s n ;; run_calls np_log s' rest
  end.

(** ** Vocabulary of the statements about binary64 values *)

(** The regret one pull of arm [k] adds. *)
Definition gap (b : BernoulliBandit) (k : Z) : float :=
  (best_prob b - nth (Z.to_nat k) (probs b) zero)%float.

(** Floats added one after the other, from the left, starting at 0. *)
Definition running_sum (gs : list float) : float :=
  fold_left add gs zero.

(** The estimate after the rewards [rs], in the order received, when the
    arm had estimate [e] and pull count [c] before them. *)
Fixpoint running_estimate (e : float) (c : Z) (rs : list Z) : float :=
  match rs with
  | [] => e
  | r :: t => running_estimate (incremental_mean e c r) (c + 1) t
  end.

(** Every float of the generator lies in [[0, 1)]. *)
Definition unit_floats (w : World) : Prop :=
  forall i, (zero <=? floats w i)%float = true /\
            (floats w i <? one)%float = true.

(** The exact value of a finite float, as the integer [x * 2^1100]
    (the smallest binary64 exponent is -1074). *)
Definition exact_scaled (x : float) : option Z :=
  match FloatOps.Prim2SF x with
  | SpecFloat.S754_zero _ => Some 0
  | SpecFloat.S754_finite s m e =>
      Some ((if s then -1 else 1) * Z.pos m * 2 ^ (e + 1100))
  | _ => None
  end.

(** [n] is the first position of the maximum of [l], none being NaN. *)
Definition first_max (l : list float) (n : nat) : Prop :=
  (n < length l)%nat /\
  (forall j, (j < length l)%nat ->
             (nth j l zero <=? nth n l zero)%float = true) /\
  (forall j, (j < n)%nat -> (nth j l zero <? nth n l zero)%float = true).

(** [n] is the position of the first NaN of [l]. *)
Definition first_nan (l : list float) (n : nat) : Prop :=
  (n < length l)%nat /\
  is_nan (nth n l zero) = true /\
  (forall j, (j < n)%nat -> is_nan (nth j l zero) = false).

Record bandit_ok (b : BernoulliBandit) : Prop := mk_bandit_ok {
  bk_pos : 1 <= K b;
  bk_len : Z.of_nat (length (probs b)) = K b
}.

Record solver_ok (s : Solver) : Prop := mk_solver_ok {
  sk_bandit : bandit_ok (bandit s);
  sk_counts : Z.of_nat (length (counts s)) = K (bandit s);
  sk_estimates : Z.of_nat (length (estimates_of s)) = K (bandit s);
  sk_concrete : policy s <> Abstract
}.

Definition policy_next (p : Policy) (es : list float) : Policy :=
  match p with
  | Abstract => Abstract
  | EpsilonGreedy epsilon _ => EpsilonGreedy epsilon es
  | DecayingEpsilonGreedy _ t => DecayingEpsilonGreedy es (t + 1)
  | UCB t _ coef => UCB (t + 1) es coef
  end.

Definition estimates_after (s : Solver) (k r : Z) : list float :=
  let i := Z.to_nat k in
  list_set (estimates_of s) i
    (incremental_mean (nth i (estimates_of s) zero) (nth i (counts s) 0) r).

(** The effect of one round in which arm [k] was pulled with reward [r]. *)
Definition after_round (s : Solver) (k r : Z) : Solver :=
  let i := Z.to_nat k in
  let rg := (regret s + gap (bandit s) k)%float in
  mkSolver (bandit s)
    (list_set (counts s) i (nth i (counts s) 0 + 1))
    rg (actions s ++ [k]) (regrets s ++ [rg])
    (policy_next (policy s) (estimates_after s k r)).

Definition same_pulls (w w' : World) : Prop :=
  floats w' = floats w /\ ints w' = ints w /\ pulls w' = pulls w.

Definition after_pull (w w' : World) (k r : Z) : Prop :=
  floats w' = floats w /\ ints w' = ints w /\
  pulls w' = pulls w ++ [(k, r)].

(** The arm a policy picks in state [s] when the generator is at [w]. *)
Definition selects (np_log : float -> float) (s : Solver) (w : World)
           (k : Z) : Prop :=
  let u := floats w (fpos w) in
  let Kb := K (bandit s) in
  match policy s with
  | Abstract => False
  | EpsilonGreedy epsilon es =>
      if (u <? epsilon)%float then k = randint_value 0 Kb w
      else np_argmax es = Ok k
  | DecayingEpsilonGreedy es t =>
      if (u <? decaying_epsilon (t + 1))%float
      then k = randint_value 0 Kb w
      else np_argmax es = Ok k
  | UCB t es coef =>
      np_argmax (ucb_scores np_log coef (t + 1) es (counts s)) = Ok k
  end.

(** Loop invariants; [t] is the number of rounds executed. *)

Definition accounting_inv (b : BernoulliBandit) (t : nat) (s : Solver)
           (w : World) : Prop :=
  bandit s = b /\
  length (actions s) = t /\
  length (regrets s) = t /\
  Zsum (counts s) = Z.of_nat t /\
  regret s = running_sum (map (gap b) (actions s)) /\
  forall i, (i < t)%nat ->
    nth i (regrets s) zero
    = running_sum (map (gap b) (firstn (S i) (actions s))).

Definition mean_inv (prior : float) (w_start : World) (t : nat) (s : Solver)
           (w : World) : Prop :=
  exists log,
    length log = t /\
    pulls w = pulls w_start ++ log /\
    forall a, 0 <= a < K (bandit s) ->
      Forall binary (rewards_of a log) /\
      nth (Z.to_nat a) (counts s) 0
      = Z.of_nat (length (rewards_of a log)) /\
      nth (Z.to_nat a) (estimates_of s) zero
      = running_estimate prior 0 (rewards_of a log).

Definition same_class (p q : Policy) : Prop :=
  match p, q with
  | Abstract, Abstract => True
  | EpsilonGreedy e _, EpsilonGreedy e' _ => e = e'
  | DecayingEpsilonGreedy _ _, DecayingEpsilonGreedy _ _ => True
  | UCB _ _ c, UCB _ _ c' => c = c'
  | _, _ => False
  end.

Definition class_inv (p0 : Policy) (w_start : World) (t : nat) (s : Solver)
           (w : World) : Prop :=
  same_class p0 (policy s) /\
  floats w = floats w_start /\
  match policy s with
  | DecayingEpsilonGreedy _ total => total = Z.of_nat t
  | UCB total _ _ => total = Z.of_nat t
  | _ => True
  end.

(** The threshold rises from round [t] to round [t + 1] and stays
    below [0.01], for [n] rounds from [t] on. *)
Fixpoint rising_from (n : nat) (t : Z) : bool :=
  match n with
  | O => true
  | S m =>
      if (decaying_epsilon t <? decaying_epsilon (t + 1))%float
      then if (decaying_epsilon (t + 1) <? one_hundredth)%float
           then rising_from m (t + 1)
           else false
      else false
  end.

(** The threshold is at most 0, for [n] rounds from [t] on. *)
Fixpoint suppressed_from (n : nat) (t : Z) : bool :=
  match n with
  | O => true
  | S m =>
      if (decaying_epsilon t <=? zero)%float
      then suppressed_from m (t + 1)
      else false
  end.

(** ** A small concrete generator and math library

    numpy's generator returns the multiples of [2^-53] in [[0, 1)];
    [grid k] is the one with numerator [k].  The floats of the concrete
    generator are such values: [0.75 + 2^-53] and the largest one below
    one third, then 0.25 before each of three pulls whose draws are
    0.0625, 0.5, 0.5, then 0.5 for ever; every raw integer is 1.
    [demo_log] is the logarithm on the arguments 1 to 4. *)
Definition grid (k : Z) : float := (of_int k / 0x1p53)%float.

Definition demo_floats (i : nat) : float :=
  match i with
  | 0%nat => 0x1.8000000000001p-1%float
  | 1%nat => 0x1.5555555555554p-2%float
  | 2%nat | 4%nat | 6%nat => 0x1p-2%float
  | 3%nat => 0x1p-4%float
  | _ => 0x1p-1%float
  end.

Definition demo_world : World := mkWorld demo_floats 0 (fun _ => 1) 0 [].

Definition demo_bandit : BernoulliBandit :=
  mkBandit [0x1.8000000000001p-1%float; 0x1.5555555555554p-2%float] 0
    0x1.8000000000001p-1%float 2.

Definition demo_world_2 : World := mkWorld demo_floats 2 (fun _ => 1) 0 [].

Definition demo_log (x : float) : float :=
  if (x =? 1)%float then 0%float
  else if (x =? 2)%float then 0x1.62e42fefa39efp-1%float
  else if (x =? 3)%float then 0x1.193ea7aad030bp+0%float
  else if (x =? 4)%float then 0x1.62e42fefa39efp+0%float
  else nan.

Definition one_half : float := 0x1p-1%float.

(** The float [1e20]. *)
Definition large_prior : float := 0x1.5af1d78b58c4p+66%float.

(** The float nearest to [1e-20]. *)
Definition tiny_coef : float := 0x1.79ca10c924223p-67%float.

(** [EpsilonGreedy(demo_bandit, epsilon=0.5)] when created, and after
    three rounds from [demo_world_2]: every round explores ([0.25 < 0.5])
    and [randint] gives arm 1, whose draws 0.0625, 0.5, 0.5 against the
    probability of arm 1 give the rewards 1, 0, 0. *)
Definition demo_solver : Solver :=
  mkSolver demo_bandit [0; 0] zero [] [] (EpsilonGreedy one_half [one; one]).

Definition demo_solver_3 : Solver :=
  mkSolver demo_bandit [0; 3]
    0x1.4000000000002p+0%float
    [1; 1; 1]
    [0x1.aaaaaaaaaaaaep-2%float; 0x1.aaaaaaaaaaaaep-1%float;
     0x1.4000000000002p+0%float]
    (EpsilonGreedy one_half [one; 0x1.5555555555556p-2%float]).

Definition demo_world_8 : World :=
  mkWorld demo_floats 8 (fun _ => 1) 3 [(1, 1); (1, 0); (1, 0)].

(** The claim's closed form [best_prob * t - sum of probs[k]] for the
    actions [acts], computed in binary64. *)
Definition float_closed_form (b : BernoulliBandit) (acts : list Z) : float :=
  (best_prob b * of_int (Z.of_nat (length acts))
   - running_sum (map (fun k => nth (Z.to_nat k) (probs b) zero) acts))%float.

(** The same closed form computed exactly, scaled by [2^1100]. *)
Fixpoint exact_sum (xs : list float) : option Z :=
  match xs with
  | [] => Some 0
  | x :: t =>
      match exact_scaled x, exact_sum t with
      | Some a, Some b => Some (a + b)
      | _, _ => None
      end
  end.

Definition exact_closed_form (b : BernoulliBandit) (acts : list Z)
  : option Z :=
  match exact_scaled (best_prob b),
        exact_sum (map (fun k => nth (Z.to_nat k) (probs b) zero) acts) with
  | Some B, Some P => Some (Z.of_nat (length acts) * B - P)
  | _, _ => None
  end.

(** The arithmetic mean of the rewards [rs], computed in binary64. *)
Definition float_mean (rs : list Z) : float :=
  (of_int (Zsum rs) / of_int (Z.of_nat (length rs)))%float.

(** The float [e] is exactly the arithmetic mean of [rs]. *)
Definition exactly_mean (e : float) (rs : list Z) : Prop :=
  match exact_scaled e with
  | Some X => Z.of_nat (length rs) * X = Zsum rs * 2 ^ 1100
  | None => False
  end.

End F64.

(** ** The order of binary64 comparisons *)

(** The place of a float that is not NaN in the order of the comparisons:
    the class first, then exponent and mantissa, reversed for negative
    numbers. *)
Definition sf_key (f : SpecFloat.spec_float) : option (Z * Z * Z) :=
  match f with
  | SpecFloat.S754_nan => None
  | SpecFloat.S754_infinity true => Some (-2, 0, 0)
  | SpecFloat.S754_finite true m e => Some (-1, - e, - Z.pos m)
  | SpecFloat.S754_zero _ => Some (0, 0, 0)
  | SpecFloat.S754_finite false m e => Some (1, e, Z.pos m)
  | SpecFloat.S754_infinity false => Some (2, 0, 0)
  end.

Definition key_lt (p q : Z * Z * Z) : Prop :=
  let '(a, b, c) := p in
  let '(a', b', c') := q in
  a < a' \/ (a = a' /\ (b < b' \/ (b = b' /\ c < c'))).

Definition float_key (x : PrimFloat.float) : option (Z * Z * Z) :=
  sf_key (FloatOps.Prim2SF x).

(** ** Indexing and list update *)

Lemma norm_index_inside (n k : Z) :
  0 <= k < n -> norm_index n k = Some (Z.to_nat k).
Proof.
  intros H. unfold norm_index.
  destruct (Z.leb_spec 0 k); [|lia].
  destruct (Z.ltb_spec k n); [|lia]. reflexivity.
Qed.

Lemma norm_index_wrap (n k : Z) :
  - n <= k < 0 -> norm_index n k = Some (Z.to_nat (k + n)).
Proof.
  intros H. unfold norm_index.
  destruct (Z.leb_spec 0 k); [lia|]. cbn [andb].
  destruct (Z.leb_spec (- n) k); [|lia].
  destruct (Z.ltb_spec k 0); [|lia]. reflexivity.
Qed.

Lemma norm_index_outside (n k : Z) :
  0 <= n -> k < - n \/ n <= k -> norm_index n k = None.
Proof.
  intros Hn H. unfold norm_index.
  destruct (Z.leb_spec 0 k), (Z.ltb_spec k n), (Z.leb_spec (- n) k),
    (Z.ltb_spec k 0); cbn [andb]; try reflexivity; lia.
Qed.

Lemma np_getitem_inside {A} (a : list A) (k : Z) (d : A) :
  0 <= k < Z.of_nat (length a) ->
  np_getitem a k = Ok (nth (Z.to_nat k) a d).
Proof.
  intros H. unfold np_getitem. rewrite norm_index_inside by exact H.
  destruct (nth_error a (Z.to_nat k)) eqn:E.
  - now rewrite (nth_error_nth _ _ d E).
  - apply nth_error_None in E. lia.
Qed.

Lemma np_getitem_wrap {A} (a : list A) (k : Z) (d : A) :
  - Z.of_nat (length a) <= k < 0 ->
  np_getitem a k = Ok (nth (Z.to_nat (k + Z.of_nat (length a))) a d).
Proof.
  intros H. unfold np_getitem. rewrite norm_index_wrap by exact H.
  destruct (nth_error a _) eqn:E.
  - now rewrite (nth_error_nth _ _ d E).
  - apply nth_error_None in E. lia.
Qed.

Lemma np_getitem_outside {A} (a : list A) (k : Z) :
  k < - Z.of_nat (length a) \/ Z.of_nat (length a) <= k ->
  np_getitem a k = Raise IndexError.
Proof.
  intros H. unfold np_getitem. rewrite norm_index_outside; [reflexivity|lia|exact H].
Qed.

Lemma np_setitem_inside {A} (a : list A) (k : Z) (v : A) :
  0 <= k < Z.of_nat (length a) ->
  np_setitem a k v = Ok (list_set a (Z.to_nat k) v).
Proof.
  intros H. unfold np_setitem. now rewrite norm_index_inside.
Qed.

Lemma list_set_length {A} (a : list A) (i : nat) (v : A) :
  length (list_set a i v) = length a.
Proof.
  revert i; induction a as [|x t IH]; intros [|i]; simpl; auto.
Qed.

Lemma list_set_nth_same {A} (a : list A) (i : nat) (v d : A) :
  (i < length a)%nat -> nth i (list_set a i v) d = v.
Proof.
  revert i; induction a as [|x t IH]; intros [|i] H; simpl in *;
    try lia; auto. apply IH. lia.
Qed.

Lemma list_set_nth_other {A} (a : list A) (i j : nat) (v d : A) :
  i <> j -> nth j (list_set a i v) d = nth j a d.
Proof.
  revert i j; induction a as [|x t IH]; intros [|i] [|j] H; simpl;
    try reflexivity; try congruence. apply IH. congruence.
Qed.

Lemma list_set_Forall {A} (P : A -> Prop) (a : list A) (i : nat) (v : A) :
  Forall P a -> P v -> Forall P (list_set a i v).
Proof.
  intros Ha Hv. revert i.
  induction Ha as [|x t Hx Ht IH]; intros [|i]; simpl; constructor; auto.
Qed.

Lemma Forall_nth_R (P : R -> Prop) (a : list R) (i : nat) :
  Forall P a -> (i < length a)%nat -> P (nth i a 0%R).
Proof.
  intros Ha Hi. rewrite Forall_forall in Ha. apply Ha. now apply nth_In.
Qed.

(** ** [np.argmax] returns the first position of the maximum *)

Lemma first_max_extend (pre : list R) (b : nat) (x : R) :
  first_max pre b ->
  if Rlt_dec (nth b pre 0%R) x
  then first_max (pre ++ [x]) (length pre)
  else first_max (pre ++ [x]) b.
Proof.
  intros (Hb & Hmax & Hfirst).
  destruct (Rlt_dec (nth b pre 0%R) x) as [Hlt|Hge]; unfold first_max;
    rewrite length_app; simpl length.
  - rewrite nth_middle. repeat split.
    + lia.
    + intros j Hj. destruct (Nat.eq_dec j (length pre)) as [->|Hne].
      * rewrite nth_middle. lra.
      * rewrite app_nth1 by lia. specialize (Hmax j ltac:(lia)). lra.
    + intros j Hj. rewrite app_nth1 by lia.
      specialize (Hmax j ltac:(lia)). lra.
  - rewrite (app_nth1 pre [x] 0%R Hb). repeat split.
    + lia.
    + intros j Hj. destruct (Nat.eq_dec j (length pre)) as [->|Hne].
      * rewrite nth_middle. lra.
      * rewrite app_nth1 by lia. apply Hmax. lia.
    + intros j Hj. rewrite app_nth1 by lia. now apply Hfirst.
Qed.

Lemma argmax_from_first_max (t pre : list R) (b : nat) :
  first_max pre b ->
  exists n,
    argmax_from t (Z.of_nat (length pre)) (Z.of_nat b) (nth b pre 0%R)
    = Z.of_nat n /\ first_max (pre ++ t) n.
Proof.
  revert pre b. induction t as [|x t IH]; intros pre b Hb.
  - exists b. simpl. rewrite app_nil_r. auto.
  - simpl. pose proof (first_max_extend x Hb) as Hx.
    assert (Hlen : Z.of_nat (length pre) + 1 = Z.of_nat (length (pre ++ [x])))
      by (rewrite length_app; simpl; lia).
    replace (pre ++ x :: t) with ((pre ++ [x]) ++ t)
      by (rewrite <- app_assoc; reflexivity).
    destruct (Rlt_dec (nth b pre 0%R) x) as [Hlt|Hge].
    + destruct (IH _ _ Hx) as (n & Hn & Hfm).
      exists n. rewrite nth_middle in Hn. rewrite Hlen. auto.
    + destruct (IH _ _ Hx) as (n & Hn & Hfm).
      exists n. rewrite app_nth1 in Hn by apply Hb. rewrite Hlen. auto.
Qed.

Lemma np_argmax_spec (l : list R) :
  l <> [] -> exists n, np_argmax l = Ok (Z.of_nat n) /\ first_max l n.
Proof.
  destruct l as [|x t]; [congruence|]. intros _.
  assert (H0 : first_max [x] 0).
  { repeat split; simpl; try lia. intros [|j] Hj; [lra|lia]. }
  destruct (argmax_from_first_max t H0) as (n & Hn & Hfm).
  exists n. simpl in *. now rewrite Hn.
Qed.

(** ** The environment *)

Lemma draw_floats_spec (n : nat) (w : World) :
  exists l,
    draw_floats n w
    = (Ok l, mkWorld (floats w) (fpos w + n) (ints w) (ipos w) (pulls w)) /\
    length l = n /\
    forall i, (i < n)%nat -> nth i l 0%R = floats w (fpos w + i)%nat.
Proof.
  revert w. induction n as [|n IH]; intros w.
  - exists []. simpl. unfold ret. rewrite Nat.add_0_r. destruct w; simpl.
    repeat split. intros i Hi; lia.
  - simpl. unfold bind, np_random_random at 1.
    destruct (IH (mkWorld (floats w) (S (fpos w)) (ints w) (ipos w) (pulls w)))
      as (l & Hl & Hlen & Hnth).
    rewrite Hl. simpl. exists (floats w (fpos w) :: l). unfold ret.
    repeat split.
    + do 2 f_equal. lia.
    + simpl. now rewrite Hlen.
    + intros [|i] Hi; simpl.
      * now rewrite Nat.add_0_r.
      * rewrite Hnth by lia. simpl. f_equal. lia.
Qed.

Lemma init_fails (K0 : Z) (w : World) :
  K0 <= 0 -> BernoulliBandit_init K0 w = (Raise ValueError, w).
Proof.
  intros H. unfold BernoulliBandit_init, bind, np_random_uniform.
  destruct (Z.ltb_spec K0 0) as [Hneg|Hzero].
  - reflexivity.
  - replace K0 with 0 by lia. simpl. unfold ret, lift. simpl.
    destruct w; reflexivity.
Qed.

Lemma init_succeeds (K0 : Z) (w : World) :
  1 <= K0 ->
  exists b,
    BernoulliBandit_init K0 w
    = (Ok b, mkWorld (floats w) (fpos w + Z.to_nat K0) (ints w) (ipos w)
               (pulls w)) /\
    K b = K0 /\
    Z.of_nat (length (probs b)) = K0 /\
    (forall i, (i < Z.to_nat K0)%nat ->
               nth i (probs b) 0%R = floats w (fpos w + i)%nat) /\
    0 <= best_idx b /\
    first_max (probs b) (Z.to_nat (best_idx b)) /\
    best_prob b = prob_at b (best_idx b).
Proof.
  intros H. unfold BernoulliBandit_init, bind, np_random_uniform.
  destruct (Z.ltb_spec K0 0) as [Hneg|_]; [lia|].
  destruct (draw_floats_spec (Z.to_nat K0) w) as (l & Hl & Hlen & Hnth).
  rewrite Hl.
  assert (Hne : l <> []) by (intros ->; simpl in Hlen; lia).
  destruct (np_argmax_spec Hne) as (n & Hn & Hfm).
  unfold lift at 1. rewrite Hn.
  assert (Hin : 0 <= Z.of_nat n < Z.of_nat (length l))
    by (destruct Hfm; lia).
  unfold lift. rewrite (np_getitem_inside l 0%R Hin).
  eexists. split; [reflexivity|]. unfold prob_at. simpl.
  rewrite Nat2Z.id. repeat split; auto; try lia; apply Hfm.
Qed.

Lemma init_ok (K0 : Z) (w w' : World) (b : BernoulliBandit) :
  BernoulliBandit_init K0 w = (Ok b, w') -> bandit_ok b /\ K b = K0.
Proof.
  intros H. destruct (Z.le_gt_cases K0 0) as [Hle|Hgt].
  - rewrite init_fails in H by exact Hle. discriminate.
  - destruct (@init_succeeds K0 w ltac:(lia))
      as (b' & Hb & HK & Hlen & _ & Hidx & Hfm & Hbest).
    rewrite Hb in H. injection H as <- _.
    split; [constructor|]; auto; lia.
Qed.


Lemma demo_init :
  BernoulliBandit_init 2 demo_world = (Ok demo_bandit, demo_world_2).
Proof.
  unfold BernoulliBandit_init, bind, np_random_uniform, lift, ret. simpl.
  unfold bind, np_random_random, ret. simpl.
  destruct (Rlt_dec (1 / 4) (1 / 2)) as [_|Hn]; [|exfalso; lra].
  reflexivity.
Qed.

Lemma step_inside (b : BernoulliBandit) (k : Z) (w : World) :
  0 <= k < Z.of_nat (length (probs b)) ->
  let r := if Rlt_dec (floats w (fpos w)) (prob_at b k) then 1 else 0 in
  step b k w
  = (Ok r, mkWorld (floats w) (S (fpos w)) (ints w) (ipos w)
             (pulls w ++ [(k, r)])).
Proof.
  intros H. unfold step, bind, np_random_rand, np_random_random, lift.
  rewrite (np_getitem_inside (probs b) 0%R H). reflexivity.
Qed.

(** ** One call of [run_one_step] *)

Lemma ucb_scores_length (coef : R) (t : Z) (es cs : list R) :
  length es = length cs -> length (ucb_scores coef t es cs) = length es.
Proof.
  revert cs. induction es as [|e es IH]; intros [|c cs] H; simpl in *;
    try lia. f_equal. apply IH. lia.
Qed.


Lemma pull_and_update (b : BernoulliBandit) (cs es : list R) (k : Z)
      (mk : list R -> Solver) (w0 w : World) :
  Z.of_nat (length cs) = Z.of_nat (length (probs b)) ->
  Z.of_nat (length es) = Z.of_nat (length (probs b)) ->
  0 <= k < Z.of_nat (length (probs b)) ->
  same_pulls w0 w ->
  exists r w',
    (r <- step b k ;;
     es' <- lift (update_estimates cs es k r) ;;
     ret (k, mk es')) w
    = (Ok (k, mk (list_set es (Z.to_nat k)
                    (incremental_mean (nth (Z.to_nat k) es 0%R)
                       (nth (Z.to_nat k) cs 0%R) r))), w') /\
    (r = 0 \/ r = 1) /\ after_pull w0 w' k r.
Proof.
  intros Hcs Hes Hk (Hf & Hi & Hp).
  unfold bind at 1. rewrite step_inside by exact Hk. cbv zeta.
  set (r := if Rlt_dec _ _ then 1 else 0).
  exists r. eexists. split; [|split].
  - unfold bind, lift, update_estimates, rbind, ret.
    rewrite (np_getitem_inside es 0%R) by lia.
    rewrite (np_getitem_inside cs 0%R) by lia.
    rewrite np_setitem_inside by lia. reflexivity.
  - subst r. destruct (Rlt_dec _ _); auto.
  - unfold after_pull. simpl. rewrite Hp. auto.
Qed.

Lemma randint_inside (Kb : Z) (w : World) :
  1 <= Kb -> 0 <= randint_value 0 Kb w < Kb.
Proof.
  intros H. unfold randint_value. rewrite Z.sub_0_r, Z.add_0_l.
  apply Z.mod_pos_bound. lia.
Qed.

Lemma greedy_choice (thr : R) (es : list R) (Kb : Z) (B : Type)
      (cont : Z -> M B) (w : World) :
  1 <= Kb -> Z.of_nat (length es) = Kb ->
  exists k w1,
    (u <- np_random_random ;;
     k <- (if Rlt_dec u thr then np_random_randint 0 Kb
           else lift (np_argmax es)) ;;
     cont k) w = cont k w1 /\
    0 <= k < Kb /\ same_pulls w w1 /\
    (if Rlt_dec (floats w (fpos w)) thr then k = randint_value 0 Kb w
     else np_argmax es = Ok k).
Proof.
  intros HK Hes. unfold bind at 1, np_random_random at 1.
  destruct (Rlt_dec (floats w (fpos w)) thr) as [Hlt|Hge].
  - unfold bind, np_random_randint.
    destruct (Z.leb_spec Kb 0) as [Hbad|_]; [lia|].
    eexists; eexists. split; [reflexivity|].
    split; [|split]; [| unfold same_pulls; simpl; auto | reflexivity].
    apply (@randint_inside Kb (mkWorld (floats w) (S (fpos w)) (ints w)
                                (ipos w) (pulls w)) HK).
  - assert (Hne : es <> []) by (intros ->; simpl in Hes; lia).
    destruct (np_argmax_spec Hne) as (n & Hn & Hfm).
    unfold bind, lift. rewrite Hn.
    eexists; eexists. split; [reflexivity|].
    split; [|split]; [| unfold same_pulls; simpl; auto | reflexivity].
    destruct Hfm. lia.
Qed.

Lemma run_one_step_spec (s : Solver) (w : World) :
  solver_ok s ->
  exists k r w',
    run_one_step s w
    = (Ok (k, with_policy s (policy_next (policy s) (estimates_after s k r))),
       w') /\
    0 <= k < K (bandit s) /\ (r = 0 \/ r = 1) /\
    after_pull w w' k r /\ selects s w k.
Proof.
  intros [Hb Hcs Hes Hnn Hc]. destruct Hb as [Hpos Hlen Hidx Hfm Hbest].
  unfold run_one_step, selects, estimates_after, estimates_of in *.
  destruct (policy s) as [|epsilon es|es t|t es coef] eqn:Hpol;
    [congruence| | |].
  - destruct (@greedy_choice epsilon es (K (bandit s)) _
                (fun k => r <- step (bandit s) k ;;
                          es' <- lift (update_estimates (counts s) es k r) ;;
                          ret (k, with_policy s (EpsilonGreedy epsilon es')))
                w Hpos Hes) as (k & w1 & Hrun & Hk & Hsame & Hsel).
    rewrite Hrun.
    destruct (@pull_and_update (bandit s) (counts s) es k
                (fun es' => with_policy s (EpsilonGreedy epsilon es')) w w1)
      as (r & w' & Hrun' & Hr & Hpull); try lia; auto.
    exists k, r, w'. simpl. auto.
  - destruct (@greedy_choice (decaying_epsilon (t + 1)) es (K (bandit s)) _
                (fun k => r <- step (bandit s) k ;;
                          es' <- lift (update_estimates (counts s) es k r) ;;
                          ret (k, with_policy s
                                    (DecayingEpsilonGreedy es' (t + 1))))
                w Hpos Hes) as (k & w1 & Hrun & Hk & Hsame & Hsel).
    cbv zeta. rewrite Hrun.
    destruct (@pull_and_update (bandit s) (counts s) es k
                (fun es' => with_policy s (DecayingEpsilonGreedy es' (t + 1)))
                w w1)
      as (r & w' & Hrun' & Hr & Hpull); try lia; auto.
    exists k, r, w'. simpl. auto.
  - cbv zeta.
    assert (Hl : length es = length (counts s)) by lia.
    pose proof (ucb_scores_length coef (t + 1) es (counts s) Hl) as Hsl.
    assert (Hne : ucb_scores coef (t + 1) es (counts s) <> []).
    { intros E. rewrite E in Hsl. simpl in Hsl. lia. }
    destruct (np_argmax_spec Hne) as (n & Hn & Hnfm).
    unfold bind at 1, lift at 1. rewrite Hn.
    assert (Hk : 0 <= Z.of_nat n < K (bandit s)) by (destruct Hnfm; lia).
    destruct (@pull_and_update (bandit s) (counts s) es (Z.of_nat n)
                (fun es' => with_policy s (UCB (t + 1) es' coef)) w w)
      as (r & w' & Hrun' & Hr & Hpull); try lia; auto.
    { unfold same_pulls; auto. }
    exists (Z.of_nat n), r, w'. simpl. auto.
Qed.

(** ** One round of the loop *)

Lemma estimates_of_with_policy (s : Solver) (es : list R) :
  policy s <> Abstract ->
  estimates_of (with_policy s (policy_next (policy s) es)) = es.
Proof.
  unfold estimates_of. simpl. destruct (policy s); simpl; congruence.
Qed.

Lemma run_round_spec (s : Solver) (w : World) :
  solver_ok s ->
  exists k r w',
    run_round s w = (Ok (after_round s k r), w') /\
    0 <= k < K (bandit s) /\ (r = 0 \/ r = 1) /\
    after_pull w w' k r /\ selects s w k.
Proof.
  intros Hok.
  destruct (run_one_step_spec w Hok) as (k & r & w' & Hrun & Hk & Hr & Hp & Hs).
  destruct Hok as [Hb Hcs Hes Hnn Hc]. destruct Hb as [Hpos Hlen Hidx Hfm Hbest].
  exists k, r, w'. split; [|auto].
  unfold run_round, bind at 1. rewrite Hrun.
  unfold bind, lift, update_regret, rbind. simpl.
  rewrite (np_getitem_inside (counts s) 0%R) by lia.
  rewrite np_setitem_inside by lia.
  rewrite (np_getitem_inside (probs (bandit s)) 0%R) by lia.
  reflexivity.
Qed.

Lemma after_round_ok (s : Solver) (k r : Z) :
  solver_ok s -> 0 <= k < K (bandit s) -> solver_ok (after_round s k r).
Proof.
  intros [Hb Hcs Hes Hnn Hc] Hk. constructor; simpl; auto.
  - rewrite list_set_length. exact Hcs.
  - change (Z.of_nat (length (estimates_of
              (with_policy s (policy_next (policy s) (estimates_after s k r)))))
            = K (bandit s)).
    rewrite estimates_of_with_policy by exact Hc.
    unfold estimates_after. rewrite list_set_length. exact Hes.
  - apply list_set_Forall; auto.
    assert (0 <= nth (Z.to_nat k) (counts s) 0)%R.
    { apply (@Forall_nth_R (fun c => (0 <= c)%R)); auto. lia. }
    lra.
  - destruct (policy s); simpl; congruence.
Qed.

Lemma after_round_estimates (s : Solver) (k r : Z) :
  policy s <> Abstract ->
  estimates_of (after_round s k r) = estimates_after s k r.
Proof.
  intros Hc. apply (estimates_of_with_policy s _ Hc).
Qed.

(** ** Fresh solver objects *)

Lemma np_zeros_ok (n : Z) :
  0 <= n -> np_zeros n = Ok (repeat 0%R (Z.to_nat n)).
Proof.
  intros H. unfold np_zeros. destruct (Z.ltb_spec n 0); [lia|reflexivity].
Qed.

Lemma Forall_repeat {A} (P : A -> Prop) (x : A) (n : nat) :
  P x -> Forall P (repeat x n).
Proof.
  intros H. induction n; simpl; constructor; auto.
Qed.

Lemma new_solver_spec (b : BernoulliBandit) (c : PolicyChoice) :
  bandit_ok b ->
  exists s,
    new_solver b c = Ok s /\ solver_ok s /\ bandit s = b /\
    counts s = repeat 0%R (Z.to_nat (K b)) /\
    regret s = 0%R /\ actions s = [] /\ regrets s = [] /\
    estimates_of s = repeat (init_prob_of c) (Z.to_nat (K b)) /\
    total_count_of s = 0.
Proof.
  intros Hb. pose proof Hb as [Hpos Hlen Hidx Hfm Hbest].
  destruct c as [epsilon p|p|coef p]; simpl;
    unfold EpsilonGreedy_init, DecayingEpsilonGreedy_init, UCB_init,
      Solver_init, rbind;
    rewrite np_zeros_ok by lia;
    (eexists; split; [reflexivity|]);
    (split; [constructor; simpl; auto|repeat split]);
    try (unfold estimates_of, list_mul; simpl; rewrite repeat_length; lia);
    try (rewrite repeat_length; lia);
    try (apply Forall_repeat; lra);
    try discriminate.
Qed.

(** ** The loop *)

Lemma for_range_add {St} (body : St -> M St) (n m : nat) (s : St) (w : World) :
  for_range (n + m) body s w
  = (s' <- for_range n body s ;; for_range m body s') w.
Proof.
  unfold bind. revert s w. induction n as [|n IH]; intros s w; simpl.
  - reflexivity.
  - unfold bind. destruct (body s w) as [[s1|e] w1]; [|reflexivity].
    apply IH.
Qed.

Lemma run_calls_total (calls : list Z) (s : Solver) (w : World) :
  run_calls s calls w
  = for_range (rounds_executed calls) run_round s w.
Proof.
  revert s w. induction calls as [|n rest IH]; intros s w; simpl.
  - reflexivity.
  - rewrite for_range_add. unfold bind, run.
    destruct (for_range (Z.to_nat n) run_round s w) as [[s1|e] w1];
      [apply IH|reflexivity].
Qed.

Section LoopInvariant.

Variable Inv : nat -> Solver -> World -> Prop.

Hypothesis Inv_round :
  forall t s w k r w',
    solver_ok s -> Inv t s w ->
    0 <= k < K (bandit s) -> (r = 0 \/ r = 1) ->
    after_pull w w' k r -> selects s w k ->
    Inv (S t) (after_round s k r) w'.

Lemma for_range_invariant (n t : nat) (s : Solver) (w : World) :
  solver_ok s -> Inv t s w ->
  exists s' w',
    for_range n run_round s w = (Ok s', w') /\
    solver_ok s' /\ bandit s' = bandit s /\ Inv (t + n) s' w'.
Proof.
  revert t s w. induction n as [|n IH]; intros t s w Hok Hinv.
  - exists s, w. rewrite Nat.add_0_r. simpl. unfold ret. auto.
  - destruct (run_round_spec w Hok) as (k & r & w1 & Hrun & Hk & Hr & Hp & Hs).
    destruct (IH (S t) (after_round s k r) w1)
      as (s' & w' & Hloop & Hok' & Hbandit & Hinv').
    + now apply after_round_ok.
    + eapply Inv_round; eauto.
    + exists s', w'. simpl. unfold bind. rewrite Hrun.
      replace (t + S n)%nat with (S t + n)%nat by lia. auto.
Qed.

End LoopInvariant.

(** ** Rewards in the pull log *)

Lemma rewards_of_app (a : Z) (l1 l2 : list (Z * Z)) :
  rewards_of a (l1 ++ l2) = rewards_of a l1 ++ rewards_of a l2.
Proof.
  induction l1 as [|[k r] t IH]; simpl; [reflexivity|].
  destruct (Z.eqb k a); simpl; now rewrite IH.
Qed.

(** ** The regret history never decreases *)





(** ** Estimates stay in the unit interval *)





(** ** A single arm *)

Lemma single_arm_round t s w k r w' :
  solver_ok s -> single_arm_inv t s w ->
  0 <= k < K (bandit s) -> (r = 0 \/ r = 1) ->
  after_pull w w' k r -> selects s w k ->
  single_arm_inv (S t) (after_round s k r) w'.
Proof.
  intros Hok (HK & Ha & Hrs & Hrg) Hk _ _ _.
  destruct (sk_bandit Hok) as [_ Hlen Hidx (Hin & _) Hbest].
  assert (k = 0) by lia. subst k.
  assert (Hb0 : best_idx (bandit s) = 0) by lia.
  unfold single_arm_inv, after_round. cbn [bandit actions regrets regret].
  rewrite Hbest, Hb0, Ha, Hrs, Hrg.
  replace (0 + (prob_at (bandit s) 0 - prob_at (bandit s) 0))%R with 0%R
    by lra.
  rewrite <- !repeat_cons. auto.
Qed.

(** C9.  On an environment with a single arm, each of the three
    policies plays arm 0 in every round, whichever branch chooses it,
    and every recorded regret, like the running regret, is exactly 0. *)
Theorem single_arm_no_regret
        (w0 w1 : World) (b : BernoulliBandit) (c : PolicyChoice)
        (calls : list Z) (w : World) :
  BernoulliBandit_init 1 w0 = (Ok b, w1) ->
  exists s0 s w',
    new_solver b c = Ok s0 /\
    run_calls s0 calls w = (Ok s, w') /\
    actions s = repeat 0 (rounds_executed calls) /\
    regrets s = repeat 0%R (rounds_executed calls) /\
    regret s = 0%R.
Proof.
  intros Hinit. destruct (@init_ok _ _ _ _ Hinit) as [Hb HK].
  destruct (@new_solver_spec b c Hb)
    as (s0 & Hnew & Hok & Hbs & _ & Hrg & Hacts & Hrgs & _).
  destruct (@for_range_invariant single_arm_inv single_arm_round
              (rounds_executed calls) 0 s0 w Hok)
    as (s & w' & Hrun & _ & _ & (_ & Ha & Hrs & Hreg)).
  { unfold single_arm_inv. rewrite Hbs. auto. }
  exists s0, s, w'. rewrite run_calls_total. auto.
Qed.

Lemma demo_init_1 :
  BernoulliBandit_init 1 demo_world = (Ok demo_bandit_1, demo_world_1).
Proof.
  unfold BernoulliBandit_init, bind, np_random_uniform, lift, ret. simpl.
  unfold bind, np_random_random, ret. simpl. reflexivity.
Qed.

Lemma single_arm_no_regret_witness :
  exists s0 s w',
    new_solver demo_bandit_1 (ChooseEpsilonGreedy (1 / 2) 1) = Ok s0 /\
    run_calls s0 [3] demo_world_1 = (Ok s, w') /\
    actions s = [0; 0; 0] /\
    regrets s = [0%R; 0%R; 0%R] /\
    regret s = 0%R.
Proof.
  apply (@single_arm_no_regret demo_world demo_world_1 demo_bandit_1
           (ChooseEpsilonGreedy (1 / 2) 1) [3] demo_world_1 demo_init_1).
Defined.

(** ** The environment's contract *)

Lemma demo_unit_floats : unit_floats demo_world.
Proof.
  intros [|[|i]]; simpl; lra.
Qed.

(** C5.  [BernoulliBandit(K)] raises for every [K <= 0] (a [ValueError],
    from the negative size or from the [argmax] of an empty array); for
    [K >= 1] and a generator whose floats are in [[0, 1)] it holds
    exactly [K] probabilities, each in [[0, 1)], [best_idx] is the first
    position of their maximum and [best_prob] is that maximum. *)
Theorem init_contract (K0 : Z) (w : World) :
  unit_floats w ->
  (K0 <= 0 -> exists w', BernoulliBandit_init K0 w = (Raise ValueError, w')) /\
  (1 <= K0 ->
   exists b w',
     BernoulliBandit_init K0 w = (Ok b, w') /\
     K b = K0 /\
     Z.of_nat (length (probs b)) = K0 /\
     Forall (fun p => (0 <= p < 1)%R) (probs b) /\
     0 <= best_idx b /\
     first_max (probs b) (Z.to_nat (best_idx b)) /\
     best_prob b = nth (Z.to_nat (best_idx b)) (probs b) 0%R).
Proof.
  intros Hunit. split; intros HK.
  - exists w. now apply init_fails.
  - destruct (@init_succeeds K0 w HK)
      as (b & Hb & HKb & Hlen & Hnth & Hidx & Hfm & Hbest).
    exists b. eexists. split; [exact Hb|]. repeat split; auto; try apply Hfm.
    apply Forall_forall. intros p Hp.
    destruct (In_nth _ _ 0%R Hp) as (i & Hi & <-).
    rewrite Hnth by lia. apply Hunit.
Qed.

Lemma init_contract_witness :
  (exists w', BernoulliBandit_init 0 demo_world = (Raise ValueError, w')) /\
  (exists b w',
     BernoulliBandit_init 2 demo_world = (Ok b, w') /\
     Z.of_nat (length (probs b)) = 2 /\
     Forall (fun p => (0 <= p < 1)%R) (probs b) /\
     best_prob b = nth (Z.to_nat (best_idx b)) (probs b) 0%R).
Proof.
  split.
  - apply (proj1 (@init_contract 0 demo_world demo_unit_floats)). lia.
  - destruct (proj2 (@init_contract 2 demo_world demo_unit_floats))
      as (b & w' & Hb & _ & Hlen & Hall & _ & _ & Hbest); [lia|].
    exists b, w'. auto.
Defined.

(** C4, as the code has it.  [step(k)] draws one float [u]; it raises
    [IndexError] when [k >= K] or [k < -K]; for [0 <= k < K] it returns
    1 if [u] is strictly below the probability of arm [k] and 0
    otherwise; for [-K <= k < 0] it does the same with arm [k + K]. *)
Theorem step_contract
        (K0 : Z) (w0 w1 : World) (b : BernoulliBandit) (k : Z) (w : World) :
  BernoulliBandit_init K0 w0 = (Ok b, w1) ->
  let u := floats w (fpos w) in
  (k < - K0 \/ K0 <= k ->
   exists w', step b k w = (Raise IndexError, w')) /\
  (0 <= k < K0 ->
   exists r w',
     step b k w = (Ok r, w') /\
     ((u < prob_at b k)%R -> r = 1) /\
     (~ (u < prob_at b k)%R -> r = 0)) /\
  (- K0 <= k < 0 ->
   exists r w',
     step b k w = (Ok r, w') /\
     ((u < prob_at b (k + K0))%R -> r = 1) /\
     (~ (u < prob_at b (k + K0))%R -> r = 0)).
Proof.
  intros Hinit u. destruct (@init_ok _ _ _ _ Hinit) as [Hb HK].
  destruct Hb as [Hpos Hlen _ _ _]. rewrite HK in Hlen.
  split; [|split]; intros Hk.
  - eexists. unfold step, bind, np_random_rand, np_random_random, lift.
    rewrite np_getitem_outside by lia. reflexivity.
  - rewrite step_inside by lia. fold u.
    eexists; eexists. split; [reflexivity|].
    destruct (Rlt_dec u (prob_at b k)); split; intros; auto; contradiction.
  - unfold step, bind, np_random_rand, np_random_random, lift.
    rewrite (np_getitem_wrap (probs b) 0%R) by lia.
    fold u. rewrite Hlen. fold (prob_at b (k + K0)). unfold log_pull, ret.
    eexists; eexists. split; [reflexivity|].
    destruct (Rlt_dec u (prob_at b (k + K0))); split; intros; auto;
      contradiction.
Qed.

Lemma step_contract_witness :
  exists r w',
    step demo_bandit (-2) demo_world_2 = (Ok r, w') /\
    ((1 / 8 < 1 / 4)%R -> r = 1) /\
    (~ (1 / 8 < 1 / 4)%R -> r = 0).
Proof.
  apply (proj2 (proj2 (@step_contract 2 demo_world demo_world_2 demo_bandit
                         (-2) demo_world_2 demo_init))).
  lia.
Defined.

(** C4, as stated, fails: on a two-armed environment the index [-1] is
    outside [[0, 2)], yet [step] does not raise; it pulls the last arm. *)
Lemma step_negative_index_counterexample :
  BernoulliBandit_init 2 demo_world = (Ok demo_bandit, demo_world_2) /\
  ~ (0 <= -1 < K demo_bandit) /\
  fst (step demo_bandit (-1) demo_world_2) = Ok 1.
Proof.
  split; [exact demo_init|]. split; [simpl; lia|].
  unfold step, bind, np_random_rand, np_random_random, lift, log_pull, ret.
  simpl. destruct (Rlt_dec (1 / 8) (1 / 2)) as [_|Hn]; [reflexivity|].
  exfalso; lra.
Qed.

(** ** Round counters *)

Lemma class_round p0 w_start t s w k r w' :
  solver_ok s -> class_inv p0 w_start t s w ->
  0 <= k < K (bandit s) -> (r = 0 \/ r = 1) ->
  after_pull w w' k r -> selects s w k ->
  class_inv p0 w_start (S t) (after_round s k r) w'.
Proof.
  intros _ (Hclass & Hfl & Hcount) _ _ (Hf & _ & _) _.
  unfold class_inv, counter_inv, after_round. cbn [policy].
  rewrite Hf, Hfl.
  destruct p0, (policy s); simpl in *; repeat split; auto; try lia.
Qed.

Lemma run_keeps_class (b : BernoulliBandit) (c : PolicyChoice) (m : nat)
      (w : World) :
  bandit_ok b ->
  exists s0 s wm,
    new_solver b c = Ok s0 /\
    run s0 (Z.of_nat m) w = (Ok s, wm) /\
    solver_ok s /\ bandit s = b /\
    class_inv (policy s0) w m s wm /\
    total_count_of s0 = 0.
Proof.
  intros Hb.
  destruct (@new_solver_spec b c Hb)
    as (s0 & Hnew & Hok & Hbs & _ & _ & _ & _ & _ & Htot).
  destruct (@for_range_invariant (class_inv (policy s0) w)
              (@class_round (policy s0) w) m 0 s0 w Hok)
    as (s & wm & Hrun & Hok' & Hsame & Hinv).
  { unfold class_inv, counter_inv, total_count_of in *.
    destruct (policy s0); simpl; auto. }
  exists s0, s, wm. unfold run. rewrite Nat2Z.id.
  split; [exact Hnew|]. split; [exact Hrun|]. split; [exact Hok'|].
  split; [congruence|]. split; [exact Hinv|exact Htot].
Qed.

Lemma demo_unit_floats_2 : unit_floats demo_world_2.
Proof.
  exact demo_unit_floats.
Qed.

(** ** Upper confidence bounds *)





(** ** Concrete runs

    The model evaluated on the small generator above, with each
    comparison of reals decided on the way. *)

Ltac run_concrete :=
  repeat (cbv -[Rlt_dec Rplus Rminus Rmult Rdiv Rinv Ropp IZR sqrt ln];
          match goal with
          | |- context [Rlt_dec ?a ?b] =>
              destruct (Rlt_dec a b); try (exfalso; lra)
          end).

Example np_getitem_last : np_getitem [10; 20; 30] (-1) = Ok 30.
Proof. reflexivity. Qed.

Example np_getitem_past_end : np_getitem [10; 20; 30] 3 = Raise IndexError.
Proof. reflexivity. Qed.

Example np_argmax_ties : np_argmax [1; 3; 3; 2]%R = Ok 1.
Proof. run_concrete. reflexivity. Qed.

Example np_argmax_empty : np_argmax [] = Raise ValueError.
Proof. reflexivity. Qed.

(** Two rounds of epsilon-greedy on arms [1/4; 1/2]: both draws 1/8
    exceed epsilon, the tie of the priors goes to arm 0, both pulls
    succeed, and each round costs 1/4 of regret. *)
Example epsilon_greedy_two_rounds :
  exists s0 s w',
    new_solver demo_bandit (ChooseEpsilonGreedy 0.01 1) = Ok s0 /\
    run s0 2 demo_world_2 = (Ok s, w') /\
    actions s = [0; 0] /\
    Forall2 eq (counts s) [2; 0]%R /\
    Forall2 eq (regrets s) [1 / 4; 1 / 2]%R /\
    Forall2 eq (estimates_of s) [1; 1]%R /\
    pulls w' = [(0, 1); (0, 1)] /\
    fpos w' = 6%nat.
Proof.
  eexists. eexists. eexists. split; [reflexivity|].
  run_concrete. cbv -[Rlt_dec Rplus Rminus Rmult Rdiv Rinv Ropp IZR sqrt ln].
  split; [reflexivity|]. split; [reflexivity|].
  repeat split; repeat constructor; lra.
Qed.

(** The first round of the decaying policy compares the draw with
    [0.01 - 1/1], which is negative, and exploits. *)
Example decaying_first_round :
  exists s0 s w',
    new_solver demo_bandit (ChooseDecayingEpsilonGreedy 1) = Ok s0 /\
    run s0 1 demo_world_2 = (Ok s, w') /\
    actions s = [0] /\
    total_count_of s = 1 /\
    ipos w' = 0%nat.
Proof.
  eexists. eexists. eexists. split; [reflexivity|].
  run_concrete. cbv -[Rlt_dec Rplus Rminus Rmult Rdiv Rinv Ropp IZR sqrt ln].
  repeat split.
Qed.

(** With a prior of 3 the first round still plays arm 0, and arm 1 is
    left unplayed. *)
Example decaying_first_round_prior_3 :
  exists s0 s w',
    new_solver demo_bandit (ChooseDecayingEpsilonGreedy 3) = Ok s0 /\
    run_calls s0 [1] demo_world_2 = (Ok s, w') /\
    actions s = [0].
Proof.
  eexists. eexists. eexists. split; [reflexivity|].
  unfold run_calls.
  run_concrete. cbv -[Rlt_dec Rplus Rminus Rmult Rdiv Rinv Ropp IZR sqrt ln].
  repeat split.
Qed.

(** ** The exact world after a round *)

Lemma pull_and_update_exact (b : BernoulliBandit) (cs es : list R) (k : Z)
      (mk : list R -> Solver) (w : World) :
  Z.of_nat (length cs) = Z.of_nat (length (probs b)) ->
  Z.of_nat (length es) = Z.of_nat (length (probs b)) ->
  0 <= k < Z.of_nat (length (probs b)) ->
  let r := if Rlt_dec (floats w (fpos w)) (prob_at b k) then 1 else 0 in
  (r <- step b k ;;
   es' <- lift (update_estimates cs es k r) ;;
   ret (k, mk es')) w
  = (Ok (k, mk (list_set es (Z.to_nat k)
                  (incremental_mean (nth (Z.to_nat k) es 0%R)
                     (nth (Z.to_nat k) cs 0%R) r))),
     mkWorld (floats w) (S (fpos w)) (ints w) (ipos w)
       (pulls w ++ [(k, r)])).
Proof.
  intros Hcs Hes Hk r.
  unfold bind at 1. rewrite step_inside by exact Hk. cbv zeta. fold r.
  unfold bind, lift, update_estimates, rbind, ret.
  rewrite (np_getitem_inside es 0%R) by lia.
  rewrite (np_getitem_inside cs 0%R) by lia.
  rewrite np_setitem_inside by lia. reflexivity.
Qed.

Lemma greedy_choice_exact (thr : R) (es : list R) (Kb : Z) (B : Type)
      (cont : Z -> M B) (w : World) :
  1 <= Kb -> Z.of_nat (length es) = Kb ->
  exists k,
    0 <= k < Kb /\
    (if Rlt_dec (floats w (fpos w)) thr then k = randint_value 0 Kb w
     else np_argmax es = Ok k) /\
    (u <- np_random_random ;;
     k <- (if Rlt_dec u thr then np_random_randint 0 Kb
           else lift (np_argmax es)) ;;
     cont k) w
    = cont k (mkWorld (floats w) (S (fpos w)) (ints w)
                (if Rlt_dec (floats w (fpos w)) thr
                 then S (ipos w) else ipos w)
                (pulls w)).
Proof.
  intros HK Hes. unfold bind at 1, np_random_random at 1.
  destruct (Rlt_dec (floats w (fpos w)) thr) as [Hlt|Hge].
  - unfold bind, np_random_randint.
    destruct (Z.leb_spec Kb 0) as [Hbad|_]; [lia|].
    exists (randint_value 0 Kb w). split; [now apply randint_inside|].
    split; reflexivity.
  - assert (Hne : es <> []) by (intros ->; simpl in Hes; lia).
    destruct (np_argmax_spec Hne) as (n & Hn & Hfm).
    unfold bind, lift. rewrite Hn.
    exists (Z.of_nat n). split; [destruct Hfm; lia|]. split; reflexivity.
Qed.

Lemma run_one_step_exact (s : Solver) (w : World) :
  solver_ok s ->
  exists k,
    0 <= k < K (bandit s) /\ selects s w k /\
    run_one_step s w
    = (Ok (k, with_policy s
                (policy_next (policy s)
                   (estimates_after s k (reward_at s w k)))),
       world_after_round s w k).
Proof.
  intros [Hb Hcs Hes Hnn Hc]. destruct Hb as [Hpos Hlen Hidx Hfm Hbest].
  unfold run_one_step, selects, estimates_after, estimates_of,
    world_after_round, explores, reward_at in *.
  destruct (policy s) as [|epsilon es|es t|t es coef] eqn:Hpol;
    [congruence| | |]; cbn [selection_floats].
  - destruct (@greedy_choice_exact epsilon es (K (bandit s)) _
                (fun k => r <- step (bandit s) k ;;
                          es' <- lift (update_estimates (counts s) es k r) ;;
                          ret (k, with_policy s (EpsilonGreedy epsilon es')))
                w Hpos Hes) as (k & Hk & Hsel & Hrun).
    rewrite Hrun. exists k. split; [exact Hk|]. split; [exact Hsel|].
    rewrite pull_and_update_exact by (simpl; lia).
    cbn [fpos floats ints ipos pulls policy_next].
    rewrite Nat.add_1_r.
    destruct (Rlt_dec (floats w (fpos w)) epsilon); reflexivity.
  - cbv zeta.
    destruct (@greedy_choice_exact (decaying_epsilon (t + 1)) es
                (K (bandit s)) _
                (fun k => r <- step (bandit s) k ;;
                          es' <- lift (update_estimates (counts s) es k r) ;;
                          ret (k, with_policy s
                                    (DecayingEpsilonGreedy es' (t + 1))))
                w Hpos Hes) as (k & Hk & Hsel & Hrun).
    rewrite Hrun. exists k. split; [exact Hk|]. split; [exact Hsel|].
    rewrite pull_and_update_exact by (simpl; lia).
    cbn [fpos floats ints ipos pulls policy_next].
    rewrite Nat.add_1_r.
    destruct (Rlt_dec (floats w (fpos w)) (decaying_epsilon (t + 1)));
      reflexivity.
  - cbv zeta.
    assert (Hl : length es = length (counts s)) by lia.
    pose proof (ucb_scores_length coef (t + 1) es (counts s) Hl) as Hsl.
    assert (Hne : ucb_scores coef (t + 1) es (counts s) <> []).
    { intros E. rewrite E in Hsl. simpl in Hsl. lia. }
    destruct (np_argmax_spec Hne) as (n & Hn & Hnfm).
    unfold bind at 1, lift at 1. rewrite Hn.
    assert (Hk : 0 <= Z.of_nat n < K (bandit s)) by (destruct Hnfm; lia).
    exists (Z.of_nat n). split; [exact Hk|]. split; [reflexivity|].
    rewrite pull_and_update_exact by lia.
    cbn [policy_next]. rewrite Nat.add_0_r. reflexivity.
Qed.

Lemma run_round_exact (s : Solver) (w : World) :
  solver_ok s ->
  exists k,
    0 <= k < K (bandit s) /\ selects s w k /\
    run_round s w
    = (Ok (after_round s k (reward_at s w k)), world_after_round s w k).
Proof.
  intros Hok.
  destruct (run_one_step_exact w Hok) as (k & Hk & Hsel & Hrun).
  destruct Hok as [Hb Hcs Hes Hnn Hc]. destruct Hb as [Hpos Hlen Hidx Hfm Hbest].
  exists k. split; [exact Hk|]. split; [exact Hsel|].
  unfold run_round, bind at 1. rewrite Hrun.
  unfold bind, lift, update_regret, rbind. simpl.
  rewrite (np_getitem_inside (counts s) 0%R) by lia.
  rewrite np_setitem_inside by lia.
  rewrite (np_getitem_inside (probs (bandit s)) 0%R) by lia.
  reflexivity.
Qed.

Section ExactLoopInvariant.

Variable Inv : nat -> Solver -> World -> Prop.

Hypothesis Inv_exact :
  forall t s w k,
    solver_ok s -> Inv t s w ->
    0 <= k < K (bandit s) -> selects s w k ->
    Inv (S t) (after_round s k (reward_at s w k)) (world_after_round s w k).

Lemma for_range_exact (n t : nat) (s : Solver) (w : World) :
  solver_ok s -> Inv t s w ->
  exists s' w',
    for_range n run_round s w = (Ok s', w') /\
    solver_ok s' /\ bandit s' = bandit s /\ Inv (t + n) s' w'.
Proof.
  revert t s w. induction n as [|n IH]; intros t s w Hok Hinv.
  - exists s, w. rewrite Nat.add_0_r. simpl. unfold ret. auto.
  - destruct (run_round_exact w Hok) as (k & Hk & Hsel & Hrun).
    destruct (IH (S t) (after_round s k (reward_at s w k))
                (world_after_round s w k))
      as (s' & w' & Hloop & Hok' & Hbandit & Hinv').
    + now apply after_round_ok.
    + now apply Inv_exact.
    + exists s', w'. simpl. unfold bind. rewrite Hrun.
      replace (t + S n)%nat with (S t + n)%nat by lia. auto.
Qed.

End ExactLoopInvariant.

(** ** Further properties of [Solver.run] *)

(** X1.  Two calls [run(n)] then [run(m)] with non-negative arguments do
    exactly what the single call [run(n + m)] does, on every solver and
    every generator, failures included. *)
Theorem run_composes (s : Solver) (n m : Z) (w : World) :
  0 <= n -> 0 <= m ->
  (s' <- run s n ;; run s' m) w = run s (n + m) w.
Proof.
  intros Hn Hm. unfold run.
  rewrite Z2Nat.inj_add by lia. rewrite for_range_add. reflexivity.
Qed.

Lemma run_composes_witness :
  (s' <- run demo_solver 2 ;; run s' 3) demo_world_2
  = run demo_solver 5 demo_world_2.
Proof.
  apply (@run_composes demo_solver 2 3 demo_world_2); lia.
Defined.

(** X2.  An object of the base class [Solver] cannot be run: any call
    with at least one round raises [NotImplementedError] before
    anything is drawn or recorded, and a call with no round, or a
    negative count, returns at once. *)
Theorem base_solver_not_runnable
        (b : BernoulliBandit) (s : Solver) (n : Z) (w : World) :
  Solver_init b = Ok s ->
  (1 <= n -> run s n w = (Raise NotImplementedError, w)) /\
  (n <= 0 -> run s n w = (Ok s, w)).
Proof.
  intros Hs. unfold Solver_init, rbind in Hs.
  destruct (np_zeros (K b)) as [cs|e]; [|discriminate].
  injection Hs as <-. split; intros Hn; unfold run.
  - destruct (Z.to_nat n) as [|m] eqn:E; [lia|]. reflexivity.
  - replace (Z.to_nat n) with 0%nat by lia. reflexivity.
Qed.

Lemma base_solver_not_runnable_witness :
  run demo_base_solver 3 demo_world_2
  = (Raise NotImplementedError, demo_world_2) /\
  run demo_base_solver (-1) demo_world_2 = (Ok demo_base_solver, demo_world_2).
Proof.
  assert (H : Solver_init demo_bandit = Ok demo_base_solver) by reflexivity.
  destruct (@base_solver_not_runnable demo_bandit demo_base_solver 3
              demo_world_2 H) as [H3 _].
  destruct (@base_solver_not_runnable demo_bandit demo_base_solver (-1)
              demo_world_2 H) as [_ Hm].
  split; [apply H3|apply Hm]; lia.
Defined.

(** ** Further properties of the environment *)

Lemma np_getitem_raises {A} (a : list A) (k : Z) (e : exn) :
  np_getitem a k = Raise e -> e = IndexError.
Proof.
  unfold np_getitem. destruct (norm_index _ k) as [i|];
    [destruct (nth_error a i)|]; congruence.
Qed.

(** X3.  For an index that fits numpy's index type, [step] uses up
    exactly one float of the generator, also when it raises, and never an
    integer; it raises nothing but [IndexError], and a successful pull
    returns 0 or 1. *)
Theorem step_consumes_one_float (b : BernoulliBandit) (k : Z) (w : World) :
  - 2 ^ 63 <= k < 2 ^ 63 ->
  exists res w',
    step b k w = (res, w') /\
    floats w' = floats w /\ ints w' = ints w /\
    fpos w' = S (fpos w) /\ ipos w' = ipos w /\
    match res with
    | Ok r => (r = 0 \/ r = 1) /\ pulls w' = pulls w ++ [(k, r)]
    | Raise e => e = IndexError /\ pulls w' = pulls w
    end.
Proof.
  intros _.
  unfold step, bind, np_random_rand, np_random_random, lift, log_pull, ret.
  destruct (np_getitem (probs b) k) as [p|e] eqn:E.
  - eexists; eexists. split; [reflexivity|]. simpl. repeat split.
    destruct (Rlt_dec (floats w (fpos w)) p); auto.
  - eexists; eexists. split; [reflexivity|]. simpl. repeat split.
    now apply np_getitem_raises in E.
Qed.

Lemma step_consumes_one_float_witness :
  - 2 ^ 63 <= 7 < 2 ^ 63 /\
  exists res w',
    step demo_bandit 7 demo_world_2 = (res, w') /\
    floats w' = floats demo_world_2 /\ ints w' = ints demo_world_2 /\
    fpos w' = S (fpos demo_world_2) /\ ipos w' = ipos demo_world_2 /\
    match res with
    | Ok r => (r = 0 \/ r = 1) /\ pulls w' = pulls demo_world_2 ++ [(7, r)]
    | Raise e => e = IndexError /\ pulls w' = pulls demo_world_2
    end.
Proof.
  assert (H : - 2 ^ 63 <= 7 < 2 ^ 63) by lia.
  split; [exact H|].
  exact (@step_consumes_one_float demo_bandit 7 demo_world_2 H).
Defined.

Example demo_solver_is_fresh : UCB_init demo_bandit 1 1 = Ok demo_solver.
Proof. reflexivity. Qed.

(** ** What a run never changes, and what it counts *)

(** X5.  However many rounds are run, the solver keeps its environment,
    its class and its hyperparameter ([epsilon], [coef]); the round
    counter of the decaying and the UCB policy equals the number of
    rounds executed since the solver was created. *)
Theorem class_and_counter_kept
        (K0 : Z) (w0 w1 : World) (b : BernoulliBandit) (c : PolicyChoice)
        (calls : list Z) (w : World) :
  BernoulliBandit_init K0 w0 = (Ok b, w1) ->
  exists s0 s w',
    new_solver b c = Ok s0 /\
    run_calls s0 calls w = (Ok s, w') /\
    bandit s = b /\
    let n := Z.of_nat (rounds_executed calls) in
    match c with
    | ChooseEpsilonGreedy epsilon _ =>
        exists es, policy s = EpsilonGreedy epsilon es
    | ChooseDecayingEpsilonGreedy _ =>
        exists es, policy s = DecayingEpsilonGreedy es n
    | ChooseUCB coef _ => exists es, policy s = UCB n es coef
    end.
Proof.
  intros Hinit. destruct (@init_ok _ _ _ _ Hinit) as [Hb _].
  destruct (@new_solver_spec b c Hb) as (s0 & Hnew & Hok & Hbs & _).
  destruct (@for_range_invariant (class_inv (policy s0) w)
              (@class_round (policy s0) w) (rounds_executed calls) 0 s0 w Hok)
    as (s & w' & Hrun & _ & Hsame & (Hclass & _ & Hcount)).
  { unfold class_inv, counter_inv.
    destruct c; simpl in Hnew;
      unfold EpsilonGreedy_init, DecayingEpsilonGreedy_init, UCB_init, rbind
        in Hnew;
      (destruct (Solver_init b); [|discriminate]);
      injection Hnew as <-; simpl; auto. }
  exists s0, s, w'. rewrite run_calls_total.
  split; [exact Hnew|]. split; [exact Hrun|]. split; [congruence|].
  rewrite Nat.add_0_l in Hcount.
  destruct c; simpl in Hnew;
    unfold EpsilonGreedy_init, DecayingEpsilonGreedy_init, UCB_init, rbind
      in Hnew;
    (destruct (Solver_init b); [|discriminate]);
    injection Hnew as <-; simpl in Hclass;
    destruct (policy s); try contradiction; subst; eauto.
Qed.

Lemma class_and_counter_kept_witness :
  exists s0 s w' es,
    new_solver demo_bandit (ChooseUCB 2 1) = Ok s0 /\
    run_calls s0 [3; 4] demo_world_2 = (Ok s, w') /\
    bandit s = demo_bandit /\
    policy s = UCB 7 es 2.
Proof.
  destruct (@class_and_counter_kept 2 demo_world demo_world_2 demo_bandit
              (ChooseUCB 2 1) [3; 4] demo_world_2 demo_init)
    as (s0 & s & w' & Hnew & Hrun & Hb & es & Hp).
  exists s0, s, w', es. auto.
Defined.

Lemma same_class_selection_floats (p q : Policy) :
  same_class p q -> selection_floats q = selection_floats p.
Proof.
  destruct p, q; simpl; intros H; try contradiction; reflexivity.
Qed.

Lemma same_class_next (p q : Policy) (es : list R) :
  same_class p q -> same_class p (policy_next q es).
Proof.
  destruct p, q; simpl; auto.
Qed.

Lemma explores_needs_selection (s : Solver) (w : World) :
  selection_floats (policy s) = 0%nat -> explores s w = false.
Proof.
  unfold explores. destruct (policy s); simpl; intros H;
    try reflexivity; discriminate.
Qed.

Lemma consumption_round p0 w_start t s w k :
  solver_ok s -> consumption_inv p0 w_start t s w ->
  0 <= k < K (bandit s) -> selects s w k ->
  consumption_inv p0 w_start (S t)
    (after_round s k (reward_at s w k)) (world_after_round s w k).
Proof.
  intros _ (Hclass & Hf & Hi & Hfp & Hip) _ _.
  pose proof (same_class_selection_floats _ _ Hclass) as Hsf.
  unfold consumption_inv, after_round, world_after_round.
  cbn [policy floats ints fpos ipos]. rewrite Hsf.
  split; [now apply same_class_next|]. split; [exact Hf|].
  split; [exact Hi|]. split; [lia|].
  destruct (explores s w) eqn:E; [|lia].
  destruct (selection_floats p0) eqn:E0; [|lia].
  rewrite explores_needs_selection in E by congruence. discriminate.
Qed.

(** X6.  What a run costs the generator.  Each round of UCB draws one
    float and no integer; each round of the two epsilon-greedy policies
    draws two floats and at most one integer.  Nothing already drawn is
    altered. *)
Theorem randomness_consumed
        (K0 : Z) (w0 w1 : World) (b : BernoulliBandit) (c : PolicyChoice)
        (calls : list Z) (w : World) :
  BernoulliBandit_init K0 w0 = (Ok b, w1) ->
  exists s0 s w',
    new_solver b c = Ok s0 /\
    run_calls s0 calls w = (Ok s, w') /\
    floats w' = floats w /\ ints w' = ints w /\
    let n := rounds_executed calls in
    match c with
    | ChooseUCB _ _ =>
        fpos w' = (fpos w + n)%nat /\ ipos w' = ipos w
    | _ =>
        fpos w' = (fpos w + 2 * n)%nat /\
        (ipos w <= ipos w' <= ipos w + n)%nat
    end.
Proof.
  intros Hinit. destruct (@init_ok _ _ _ _ Hinit) as [Hb _].
  destruct (@new_solver_spec b c Hb) as (s0 & Hnew & Hok & _).
  destruct (@for_range_exact (consumption_inv (policy s0) w)
              (@consumption_round (policy s0) w)
              (rounds_executed calls) 0 s0 w Hok)
    as (s & w' & Hrun & _ & _ & (_ & Hf & Hi & Hfp & Hip)).
  { unfold consumption_inv. repeat split; try lia.
    destruct (policy s0); simpl; auto. }
  exists s0, s, w'. rewrite run_calls_total.
  split; [exact Hnew|]. split; [exact Hrun|]. split; [exact Hf|].
  split; [exact Hi|]. rewrite Nat.add_0_l in *.
  destruct c; simpl in Hnew;
    unfold EpsilonGreedy_init, DecayingEpsilonGreedy_init, UCB_init, rbind
      in Hnew;
    (destruct (Solver_init b); [|discriminate]);
    injection Hnew as <-; cbn [policy with_policy selection_floats] in *;
    lia.
Qed.

Lemma randomness_consumed_witness :
  exists s0 s w',
    new_solver demo_bandit (ChooseUCB 1 1) = Ok s0 /\
    run_calls s0 [4] demo_world_2 = (Ok s, w') /\
    fpos w' = 6%nat /\ ipos w' = 0%nat.
Proof.
  destruct (@randomness_consumed 2 demo_world demo_world_2 demo_bandit
              (ChooseUCB 1 1) [4] demo_world_2 demo_init)
    as (s0 & s & w' & Hnew & Hrun & _ & _ & Hfp & Hip).
  exists s0, s, w'. auto.
Defined.

(** ** Epsilon outside (0, 1) *)

Lemma epsilon_extremes_round (epsilon : R) (w_start : World) t s w k :
  unit_floats w_start ->
  solver_ok s ->
  (same_class (EpsilonGreedy epsilon []) (policy s) /\
   ((epsilon <= 0)%R -> never_explore_inv w_start t s w) /\
   ((1 <= epsilon)%R -> always_explore_inv w_start t s w)) ->
  0 <= k < K (bandit s) -> selects s w k ->
  same_class (EpsilonGreedy epsilon []) (policy (after_round s k (reward_at s w k))) /\
  ((epsilon <= 0)%R ->
   never_explore_inv w_start (S t) (after_round s k (reward_at s w k))
     (world_after_round s w k)) /\
  ((1 <= epsilon)%R ->
   always_explore_inv w_start (S t) (after_round s k (reward_at s w k))
     (world_after_round s w k)).
Proof.
  intros Hunit _ (Hclass & Hnever & Halways) _ Hsel.
  split; [now apply same_class_next|].
  unfold selects, explores, never_explore_inv, always_explore_inv,
    world_after_round, after_round, explores in *.
  cbn [floats ints ipos actions bandit].
  destruct (policy s) as [|e es|es tc|tc es cf]; try contradiction.
  simpl in Hclass. subst e. split.
  - intros Heps. destruct (Hnever Heps) as (Hf & Hi).
    split; [exact Hf|].
    destruct (Rlt_dec (floats w (fpos w)) epsilon) as [Hlt|_]; [|exact Hi].
    rewrite Hf in Hlt. pose proof (Hunit (fpos w)). lra.
  - intros Heps. destruct (Halways Heps) as (Hf & Hi & Hip & Hacts).
    split; [exact Hf|]. split; [exact Hi|].
    destruct (Rlt_dec (floats w (fpos w)) epsilon) as [_|Hge].
    + split; [lia|]. rewrite seq_S, map_app, Hacts. simpl. f_equal.
      rewrite Hsel. unfold randint_value.
      rewrite Hi, Hip, Z.sub_0_r, Z.add_0_l. reflexivity.
    + exfalso. apply Hge. rewrite Hf. pose proof (Hunit (fpos w)). lra.
Qed.

(** X7.  [EpsilonGreedy] does not check [epsilon].  With [epsilon <= 0]
    it never calls [randint], so no integer of the generator is used;
    with [epsilon >= 1] it calls [randint] in every round, and the
    actions are exactly the successive values [randint] returns. *)
Theorem epsilon_extremes
        (K0 : Z) (w0 w1 : World) (b : BernoulliBandit) (epsilon init_prob : R)
        (n : nat) (w : World) :
  BernoulliBandit_init K0 w0 = (Ok b, w1) ->
  unit_floats w ->
  exists s0 s w',
    EpsilonGreedy_init b epsilon init_prob = Ok s0 /\
    run s0 (Z.of_nat n) w = (Ok s, w') /\
    ((epsilon <= 0)%R -> ipos w' = ipos w) /\
    ((1 <= epsilon)%R ->
     ipos w' = (ipos w + n)%nat /\
     actions s
     = map (fun i => ints w (ipos w + i)%nat mod K b) (seq 0 n)).
Proof.
  intros Hinit Hunit. destruct (@init_ok _ _ _ _ Hinit) as [Hb _].
  destruct (@new_solver_spec b (ChooseEpsilonGreedy epsilon init_prob) Hb)
    as (s0 & Hnew & Hok & Hbs & _ & _ & Hacts & _).
  destruct (@for_range_exact
              (fun t s w' =>
                 same_class (EpsilonGreedy epsilon []) (policy s) /\
                 ((epsilon <= 0)%R -> never_explore_inv w t s w') /\
                 ((1 <= epsilon)%R -> always_explore_inv w t s w'))
              (fun t s w' k Hs Hi Hk Hsel =>
                 @epsilon_extremes_round epsilon w t s w' k Hunit Hs Hi Hk Hsel)
              n 0 s0 w Hok)
    as (s & w' & Hrun & _ & Hsame & (_ & Hnever & Halways)).
  { simpl in Hnew. pose proof Hnew as Hnew'.
    unfold EpsilonGreedy_init, rbind in Hnew'.
    destruct (Solver_init b); [|discriminate]. injection Hnew' as <-.
    split; [reflexivity|]. split; intros _.
    - split; reflexivity.
    - unfold always_explore_inv. rewrite Hacts.
      repeat split. lia. }
  exists s0, s, w'. unfold run. rewrite Nat2Z.id.
  split; [exact Hnew|]. split; [exact Hrun|]. split.
  - intros Heps. apply (Hnever Heps).
  - intros Heps. destruct (Halways Heps) as (_ & _ & Hip & Ha).
    rewrite Hsame, Hbs in Ha. auto.
Qed.

Lemma epsilon_extremes_witness :
  exists s0 s w',
    EpsilonGreedy_init demo_bandit 1 1 = Ok s0 /\
    run s0 3 demo_world_2 = (Ok s, w') /\
    ipos w' = 3%nat /\
    actions s = [1; 1; 1].
Proof.
  destruct (@epsilon_extremes 2 demo_world demo_world_2 demo_bandit 1 1 3
              demo_world_2 demo_init demo_unit_floats_2)
    as (s0 & s & w' & Hnew & Hrun & _ & Hall).
  exists s0, s, w'. split; [exact Hnew|]. split; [exact Hrun|].
  apply Hall. lra.
Defined.

Lemma nth_repeat_inside (x d : R) (n i : nat) :
  (i < n)%nat -> nth i (repeat x n) d = x.
Proof.
  intros H. rewrite (nth_indep _ d x) by (rewrite repeat_length; exact H).
  apply nth_repeat.
Qed.

(** ** The first round of a fresh solver *)

Lemma argmax_from_constant (x : R) (n : nat) (i : Z) :
  argmax_from (repeat x n) i 0 x = 0.
Proof.
  revert i. induction n as [|n IH]; intros i; simpl; [reflexivity|].
  destruct (Rlt_dec x x) as [Hlt|_]; [lra|apply IH].
Qed.

Lemma np_argmax_constant (x : R) (n : nat) :
  (0 < n)%nat -> np_argmax (repeat x n) = Ok 0.
Proof.
  destruct n as [|n]; [lia|]. intros _. simpl.
  now rewrite argmax_from_constant.
Qed.

Lemma ucb_scores_repeat (coef : R) (t : Z) (e c : R) (n : nat) :
  ucb_scores coef t (repeat e n) (repeat c n)
  = repeat (ucb_score coef t e c) n.
Proof.
  induction n as [|n IH]; simpl; [reflexivity|now rewrite IH].
Qed.

(** X9.  A fresh solver starts with arm 0 whenever it does not explore:
    UCB always (all scores are equal in round 1, where [ln 1 = 0]), the
    decaying policy always (its first threshold is negative), and
    epsilon-greedy when the first float drawn is not below [epsilon]. *)
Theorem first_round_pulls_arm_0
        (K0 : Z) (w0 w1 : World) (b : BernoulliBandit) (c : PolicyChoice)
        (w : World) :
  BernoulliBandit_init K0 w0 = (Ok b, w1) ->
  unit_floats w ->
  match c with
  | ChooseEpsilonGreedy epsilon _ => (epsilon <= floats w (fpos w))%R
  | _ => True
  end ->
  exists s0 s w',
    new_solver b c = Ok s0 /\
    run s0 1 w = (Ok s, w') /\
    actions s = [0].
Proof.
  intros Hinit Hunit Hc. destruct (@init_ok _ _ _ _ Hinit) as [Hb _].
  destruct (@new_solver_spec b c Hb)
    as (s0 & Hnew & Hok & Hbs & Hcs & _ & Hacts & _ & Hes & _).
  destruct (run_round_exact w Hok) as (k & Hk & Hsel & Hrun).
  exists s0. eexists. eexists. split; [exact Hnew|].
  unfold run. simpl. unfold bind. rewrite Hrun. unfold ret.
  split; [reflexivity|]. cbn [after_round actions]. rewrite Hacts. simpl.
  f_equal. pose proof (bk_pos Hb) as Hpos.
  assert (Hn : (0 < Z.to_nat (K b))%nat) by lia.
  unfold selects, estimates_of in *.
  destruct c as [epsilon p|p|coef p]; simpl in Hnew, Hes;
    unfold EpsilonGreedy_init, DecayingEpsilonGreedy_init, UCB_init, rbind
      in Hnew;
    (destruct (Solver_init b) as [sb|]; [|discriminate]);
    injection Hnew as E; rewrite <- E in Hsel, Hes; cbn [policy with_policy] in *.
  - destruct (Rlt_dec (floats w (fpos w)) epsilon) as [Hlt|_]; [lra|].
    rewrite Hes, np_argmax_constant in Hsel by exact Hn. congruence.
  - destruct (Rlt_dec (floats w (fpos w)) (decaying_epsilon (0 + 1)))
      as [Hlt|_].
    + unfold decaying_epsilon in Hlt. simpl in Hlt.
      pose proof (Hunit (fpos w)). lra.
    + rewrite Hes, np_argmax_constant in Hsel by exact Hn. congruence.
  - rewrite <- E in Hcs. cbn [counts with_policy] in Hsel.
    cbn [counts with_policy] in Hcs.
    rewrite Hes, Hcs, ucb_scores_repeat, np_argmax_constant in Hsel
      by exact Hn.
    congruence.
Qed.

Lemma first_round_pulls_arm_0_witness :
  exists s0 s w',
    new_solver demo_bandit (ChooseEpsilonGreedy 0.01 1) = Ok s0 /\
    run s0 1 demo_world_2 = (Ok s, w') /\
    actions s = [0].
Proof.
  apply (@first_round_pulls_arm_0 2 demo_world demo_world_2 demo_bandit
           (ChooseEpsilonGreedy 0.01 1) demo_world_2 demo_init
           demo_unit_floats_2).
  simpl. lra.
Defined.

(** ** Pull counts, histories and priors *)

Lemma bookkeeping_round (prior : R) t s w k r w' :
  solver_ok s -> bookkeeping_inv prior t s w ->
  0 <= k < K (bandit s) -> (r = 0 \/ r = 1) ->
  after_pull w w' k r -> selects s w k ->
  bookkeeping_inv prior (S t) (after_round s k r) w'.
Proof.
  intros Hok (Hrange & Harms) Hk _ _ _.
  pose proof (sk_counts Hok) as Hcs. pose proof (sk_estimates Hok) as Hes.
  unfold bookkeeping_inv.
  rewrite (after_round_estimates s k r (sk_concrete Hok)).
  unfold estimates_after, after_round. cbn [bandit actions counts].
  split.
  { apply Forall_app. split; [exact Hrange|]. constructor; auto. }
  intros a Ha. destruct (Harms a Ha) as (Hcount & Hprior).
  rewrite count_occ_app. simpl count_occ.
  destruct (Z.eq_dec k a) as [->|Hne].
  - rewrite list_set_nth_same by lia. rewrite Hcount, plus_INR. simpl.
    split; [reflexivity|]. intros Hnot. exfalso. apply Hnot.
    apply in_or_app. right. now left.
  - rewrite !list_set_nth_other by lia. rewrite Hcount, Nat.add_0_r.
    split; [reflexivity|]. intros Hnot. apply Hprior.
    intros Hin. apply Hnot. apply in_or_app. now left.
Qed.

Lemma bookkeeping_holds
      (b : BernoulliBandit) (c : PolicyChoice) (n : nat) (w : World) :
  bandit_ok b ->
  exists s0 s w',
    new_solver b c = Ok s0 /\
    for_range n run_round s0 w = (Ok s, w') /\
    bandit s = b /\
    bookkeeping_inv (init_prob_of c) n s w'.
Proof.
  intros Hb.
  destruct (@new_solver_spec b c Hb)
    as (s0 & Hnew & Hok & Hbs & Hcs & _ & Hacts & _ & Hes & _).
  destruct (@for_range_invariant (bookkeeping_inv (init_prob_of c))
              (@bookkeeping_round (init_prob_of c)) n 0 s0 w Hok)
    as (s & w' & Hrun & _ & Hsame & Hinv).
  { unfold bookkeeping_inv. rewrite Hacts, Hcs, Hes, Hbs.
    split; [constructor|]. intros a Ha. simpl.
    split; [|intros _]; apply nth_repeat_inside; lia. }
  exists s0, s, w'. split; [exact Hnew|]. split; [exact Hrun|].
  split; [congruence|exact Hinv].
Qed.

(** X10.  Every recorded action is an arm index of [[0, K)], so [run]
    never indexes out of range or from the end, and the pull count of
    each arm is the number of times the arm occurs in the history of
    actions. *)
Theorem counts_match_actions
        (K0 : Z) (w0 w1 : World) (b : BernoulliBandit) (c : PolicyChoice)
        (calls : list Z) (w : World) :
  BernoulliBandit_init K0 w0 = (Ok b, w1) ->
  exists s0 s w',
    new_solver b c = Ok s0 /\
    run_calls s0 calls w = (Ok s, w') /\
    Forall (fun k => 0 <= k < K b) (actions s) /\
    forall a, 0 <= a < K b ->
      nth (Z.to_nat a) (counts s) 0%R
      = INR (count_occ Z.eq_dec (actions s) a).
Proof.
  intros Hinit. destruct (@init_ok _ _ _ _ Hinit) as [Hb _].
  destruct (@bookkeeping_holds b c (rounds_executed calls) w Hb)
    as (s0 & s & w' & Hnew & Hrun & Hbs & (Hrange & Harms)).
  rewrite Hbs in *.
  exists s0, s, w'. rewrite run_calls_total.
  split; [exact Hnew|]. split; [exact Hrun|]. split; [exact Hrange|].
  intros a Ha. apply (Harms a Ha).
Qed.

Lemma counts_match_actions_witness :
  exists s0 s w',
    new_solver demo_bandit (ChooseEpsilonGreedy 0.5 1) = Ok s0 /\
    run_calls s0 [2; 2] demo_world_2 = (Ok s, w') /\
    Forall (fun k => 0 <= k < 2) (actions s) /\
    nth 1 (counts s) 0%R = INR (count_occ Z.eq_dec (actions s) 1).
Proof.
  destruct (@counts_match_actions 2 demo_world demo_world_2 demo_bandit
              (ChooseEpsilonGreedy 0.5 1) [2; 2] demo_world_2 demo_init)
    as (s0 & s & w' & Hnew & Hrun & Hrange & Harms).
  exists s0, s, w'. split; [exact Hnew|]. split; [exact Hrun|].
  split; [exact Hrange|]. apply (Harms 1). simpl. lia.
Defined.

(** X11.  An arm that has not been played keeps what the constructor
    gave it: its pull count is 0 and its estimate is the prior. *)
Theorem unpulled_arm_keeps_prior
        (K0 : Z) (w0 w1 : World) (b : BernoulliBandit) (c : PolicyChoice)
        (calls : list Z) (w : World) :
  BernoulliBandit_init K0 w0 = (Ok b, w1) ->
  exists s0 s w',
    new_solver b c = Ok s0 /\
    run_calls s0 calls w = (Ok s, w') /\
    forall a, 0 <= a < K b -> ~ In a (actions s) ->
      nth (Z.to_nat a) (counts s) 0%R = 0%R /\
      nth (Z.to_nat a) (estimates_of s) 0%R = init_prob_of c.
Proof.
  intros Hinit. destruct (@init_ok _ _ _ _ Hinit) as [Hb _].
  destruct (@bookkeeping_holds b c (rounds_executed calls) w Hb)
    as (s0 & s & w' & Hnew & Hrun & Hbs & (Hrange & Harms)).
  rewrite Hbs in *.
  exists s0, s, w'. rewrite run_calls_total.
  split; [exact Hnew|]. split; [exact Hrun|].
  intros a Ha Hnot. destruct (Harms a Ha) as (Hcount & Hprior).
  split; [|now apply Hprior].
  rewrite Hcount. apply (count_occ_not_In Z.eq_dec) in Hnot.
  rewrite Hnot. reflexivity.
Qed.

Lemma unpulled_arm_keeps_prior_witness :
  exists s0 s w',
    new_solver demo_bandit (ChooseDecayingEpsilonGreedy 3) = Ok s0 /\
    run_calls s0 [1] demo_world_2 = (Ok s, w') /\
    actions s = [0] /\
    nth 1 (counts s) 0%R = 0%R /\ nth 1 (estimates_of s) 0%R = 3%R.
Proof.
  destruct (@unpulled_arm_keeps_prior 2 demo_world demo_world_2 demo_bandit
              (ChooseDecayingEpsilonGreedy 3) [1] demo_world_2 demo_init)
    as (s0 & s & w' & Hnew & Hrun & Harms).
  destruct decaying_first_round_prior_3
    as (s0' & s' & w'' & Hnew' & Hrun' & Hact).
  rewrite Hnew in Hnew'. injection Hnew' as E0. rewrite <- E0 in Hrun'.
  rewrite Hrun in Hrun'. injection Hrun' as E1 E2. rewrite <- E1 in Hact.
  exists s0, s, w'. split; [exact Hnew|]. split; [exact Hrun|].
  split; [exact Hact|].
  apply (Harms 1); [simpl; lia|].
  rewrite Hact. simpl. intros [H|[]]. discriminate H.
Defined.

(** ** The choice of epsilon-greedy *)

(** X13.  In any round of [EpsilonGreedy], after any number of earlier
    rounds: if the float drawn is below [epsilon] the arm is the value
    of [randint(0, K)]; otherwise it is the first arm among those with
    the highest estimate.  Either way it is an arm of [[0, K)]. *)
Theorem epsilon_greedy_choice
        (K0 : Z) (w0 w1 : World) (b : BernoulliBandit) (epsilon init_prob : R)
        (m : nat) (w : World) :
  BernoulliBandit_init K0 w0 = (Ok b, w1) ->
  exists s0 s wm k s' w',
    EpsilonGreedy_init b epsilon init_prob = Ok s0 /\
    run s0 (Z.of_nat m) w = (Ok s, wm) /\
    run_one_step s wm = (Ok (k, s'), w') /\
    0 <= k < K b /\
    let u := floats wm (fpos wm) in
    ((u < epsilon)%R -> k = randint_value 0 (K b) wm) /\
    (~ (u < epsilon)%R -> first_max (estimates_of s) (Z.to_nat k)).
Proof.
  intros Hinit. destruct (@init_ok _ _ _ _ Hinit) as [Hb _].
  destruct (@run_keeps_class b (ChooseEpsilonGreedy epsilon init_prob) m w Hb)
    as (s0 & s & wm & Hnew & Hrun & Hok & Hbs & (Hclass & _) & _).
  destruct (run_one_step_exact wm Hok) as (k & Hk & Hsel & Hstep).
  assert (Hpol : exists es, policy s = EpsilonGreedy epsilon es).
  { pose proof Hnew as Hnew'. simpl in Hnew'.
    unfold EpsilonGreedy_init, rbind in Hnew'.
    destruct (Solver_init b); [|discriminate].
    injection Hnew' as E. rewrite <- E in Hclass. simpl in Hclass.
    destruct (policy s); try contradiction. subst. eauto. }
  destruct Hpol as (es & Hpol).
  exists s0, s, wm, k. eexists. eexists.
  split; [exact Hnew|]. split; [exact Hrun|]. split; [exact Hstep|].
  subst b. split; [exact Hk|].
  unfold selects, estimates_of in *. rewrite Hpol in *. cbv zeta.
  destruct (Rlt_dec (floats wm (fpos wm)) epsilon) as [Hlt|Hge].
  - split; [intros _; exact Hsel|intros Hn; contradiction].
  - split; [intros Hlt; contradiction|]. intros _.
    assert (Hne : es <> []).
    { intros ->. discriminate. }
    destruct (np_argmax_spec Hne) as (n & Hn & Hfm).
    rewrite Hn in Hsel. injection Hsel as <-. now rewrite Nat2Z.id.
Qed.

Lemma epsilon_greedy_choice_witness :
  exists s0 s wm k s' w',
    EpsilonGreedy_init demo_bandit 0.01 1 = Ok s0 /\
    run s0 2 demo_world_2 = (Ok s, wm) /\
    run_one_step s wm = (Ok (k, s'), w') /\
    0 <= k < 2.
Proof.
  destruct (@epsilon_greedy_choice 2 demo_world demo_world_2 demo_bandit
              0.01 1 2 demo_world_2 demo_init)
    as (s0 & s & wm & k & s' & w' & Hnew & Hrun & Hstep & Hk & _).
  exists s0, s, wm, k, s', w'. auto.
Defined.

(** * Binary64 arithmetic *)

Import PrimFloat.PrimFloatNotations.

(** ** Comparisons of floats that are not NaN form a total order *)

Lemma SFcompare_key (f g : SpecFloat.spec_float) :
  match sf_key f, sf_key g with
  | Some p, Some q =>
      (SpecFloat.SFcompare f g = Some Lt /\ key_lt p q) \/
      (SpecFloat.SFcompare f g = Some Eq /\ p = q) \/
      (SpecFloat.SFcompare f g = Some Gt /\ key_lt q p)
  | _, _ => SpecFloat.SFcompare f g = None
  end.
Proof.
  destruct f as [[|]|[|]| |[|] m e], g as [[|]|[|]| |[|] m' e']; simpl;
    try reflexivity; try (left; split; [reflexivity|lia]);
    try (right; left; split; reflexivity);
    try (right; right; split; [reflexivity|lia]).
  - destruct (Z.compare_spec e e') as [He|He|He].
    + subst. change (PosDef.Pos.compare_cont Eq m m') with (Pos.compare m m').
      destruct (Pos.compare_spec m m') as [Hm|Hm|Hm]; simpl.
      * subst. right; left. auto.
      * right; right. split; [reflexivity|lia].
      * left. split; [reflexivity|lia].
    + right; right. split; [reflexivity|lia].
    + left. split; [reflexivity|lia].
  - destruct (Z.compare_spec e e') as [He|He|He].
    + subst. change (PosDef.Pos.compare_cont Eq m m') with (Pos.compare m m').
      destruct (Pos.compare_spec m m') as [Hm|Hm|Hm]; simpl.
      * subst. right; left. auto.
      * left. split; [reflexivity|lia].
      * right; right. split; [reflexivity|lia].
    + left. split; [reflexivity|lia].
    + right; right. split; [reflexivity|lia].
Qed.

Lemma key_lt_irrefl (p : Z * Z * Z) : ~ key_lt p p.
Proof. destruct p as [[a b] c]. unfold key_lt. lia. Qed.

Lemma key_lt_asym (p q : Z * Z * Z) : key_lt p q -> ~ key_lt q p.
Proof. destruct p as [[a b] c], q as [[a' b'] c']. unfold key_lt. lia. Qed.

Lemma key_lt_trans (p q r : Z * Z * Z) : key_lt p q -> key_lt q r -> key_lt p r.
Proof.
  destruct p as [[a b] c], q as [[a' b'] c'], r as [[a'' b''] c''].
  unfold key_lt. lia.
Qed.

Lemma key_lt_total (p q : Z * Z * Z) : key_lt p q \/ p = q \/ key_lt q p.
Proof.
  destruct p as [[a b] c], q as [[a' b'] c']. unfold key_lt.
  destruct (Z.lt_trichotomy a a') as [?|[?|?]]; [lia| |lia].
  destruct (Z.lt_trichotomy b b') as [?|[?|?]]; [lia| |lia].
  destruct (Z.lt_trichotomy c c') as [?|[?|?]]; [lia| |lia].
  right; left. congruence.
Qed.

Lemma float_ltb_key (x y : PrimFloat.float) :
  (x <? y)%float = true <->
  exists p q, float_key x = Some p /\ float_key y = Some q /\ key_lt p q.
Proof.
  rewrite FloatAxioms.ltb_spec. unfold SpecFloat.SFltb, float_key.
  pose proof (SFcompare_key (FloatOps.Prim2SF x) (FloatOps.Prim2SF y)) as H.
  destruct (sf_key (FloatOps.Prim2SF x)) as [p|];
    [destruct (sf_key (FloatOps.Prim2SF y)) as [q|]|].
  - destruct H as [[H Hk]|[[H Hk]|[H Hk]]]; rewrite H; split.
    + intros _. eauto.
    + reflexivity.
    + discriminate.
    + intros (p' & q' & Hp & Hq & Hlt).
      injection Hp as <-. injection Hq as <-. subst q.
      now apply key_lt_irrefl in Hlt.
    + discriminate.
    + intros (p' & q' & Hp & Hq & Hlt).
      injection Hp as <-. injection Hq as <-.
      now apply key_lt_asym in Hlt.
  - rewrite H. split; [discriminate|].
    intros (p' & q' & _ & Hq & _). discriminate.
  - rewrite H. split; [discriminate|].
    intros (p' & q' & Hp & _). discriminate.
Qed.

Lemma float_leb_key (x y : PrimFloat.float) :
  (x <=? y)%float = true <->
  exists p q, float_key x = Some p /\ float_key y = Some q /\
              (key_lt p q \/ p = q).
Proof.
  rewrite FloatAxioms.leb_spec. unfold SpecFloat.SFleb, float_key.
  pose proof (SFcompare_key (FloatOps.Prim2SF x) (FloatOps.Prim2SF y)) as H.
  destruct (sf_key (FloatOps.Prim2SF x)) as [p|];
    [destruct (sf_key (FloatOps.Prim2SF y)) as [q|]|].
  - destruct H as [[H Hk]|[[H Hk]|[H Hk]]]; rewrite H; split.
    + intros _. eauto 6.
    + reflexivity.
    + intros _. eauto 6.
    + reflexivity.
    + discriminate.
    + intros (p' & q' & Hp & Hq & Hle).
      injection Hp as <-. injection Hq as <-. destruct Hle as [Hlt| ->].
      * now apply key_lt_asym in Hlt.
      * now apply key_lt_irrefl in Hk.
  - rewrite H. split; [discriminate|].
    intros (p' & q' & _ & Hq & _). discriminate.
  - rewrite H. split; [discriminate|].
    intros (p' & q' & Hp & _). discriminate.
Qed.

Lemma float_is_nan_key (x : PrimFloat.float) :
  PrimFloat.is_nan x = false <-> exists p, float_key x = Some p.
Proof.
  unfold PrimFloat.is_nan. rewrite FloatAxioms.eqb_spec.
  unfold SpecFloat.SFeqb, float_key.
  pose proof (SFcompare_key (FloatOps.Prim2SF x) (FloatOps.Prim2SF x)) as H.
  destruct (sf_key (FloatOps.Prim2SF x)) as [p|].
  - destruct H as [[H Hk]|[[H Hk]|[H Hk]]]; rewrite H; simpl; split;
      intros; eauto; try discriminate; now apply key_lt_irrefl in Hk.
  - rewrite H. simpl. split; [discriminate|intros (p & Hp); discriminate].
Qed.

(** The comparisons of floats that are not NaN form a total order. *)

Lemma float_leb_not_nan (x y : PrimFloat.float) :
  (x <=? y)%float = true ->
  PrimFloat.is_nan x = false /\ PrimFloat.is_nan y = false.
Proof.
  intros H. apply float_leb_key in H. destruct H as (p & q & Hp & Hq & _).
  split; apply float_is_nan_key; eauto.
Qed.

Lemma float_ltb_leb (x y : PrimFloat.float) :
  (x <? y)%float = true -> (x <=? y)%float = true.
Proof.
  intros H. apply float_ltb_key in H. destruct H as (p & q & Hp & Hq & Hlt).
  apply float_leb_key. eauto 6.
Qed.

Lemma float_not_leb_ltb (x y : PrimFloat.float) :
  (y <=? x)%float = false ->
  PrimFloat.is_nan x = false -> PrimFloat.is_nan y = false ->
  (x <? y)%float = true.
Proof.
  intros H Hx Hy. apply float_is_nan_key in Hx, Hy.
  destruct Hx as (p & Hp), Hy as (q & Hq).
  apply float_ltb_key. exists p, q. split; [exact Hp|]. split; [exact Hq|].
  destruct (key_lt_total p q) as [Hlt|[Heq|Hgt]]; [exact Hlt| |].
  - exfalso. assert (Hle : (y <=? x)%float = true).
    { apply float_leb_key. exists q, p. auto. }
    congruence.
  - exfalso. assert (Hle : (y <=? x)%float = true).
    { apply float_leb_key. exists q, p. auto. }
    congruence.
Qed.

Lemma float_leb_ltb_trans (x y z : PrimFloat.float) :
  (x <=? y)%float = true -> (y <? z)%float = true -> (x <? z)%float = true.
Proof.
  intros H1 H2. apply float_leb_key in H1. apply float_ltb_key in H2.
  destruct H1 as (p & q & Hp & Hq & Hle), H2 as (q' & r & Hq' & Hr & Hlt).
  rewrite Hq in Hq'. injection Hq' as <-.
  apply float_ltb_key. exists p, r. split; [exact Hp|]. split; [exact Hr|].
  destruct Hle as [Hle| ->]; [eapply key_lt_trans; eauto|exact Hlt].
Qed.

Lemma float_ltb_leb_trans (x y z : PrimFloat.float) :
  (x <? y)%float = true -> (y <=? z)%float = true -> (x <? z)%float = true.
Proof.
  intros H1 H2. apply float_ltb_key in H1. apply float_leb_key in H2.
  destruct H1 as (p & q & Hp & Hq & Hlt), H2 as (q' & r & Hq' & Hr & Hle).
  rewrite Hq in Hq'. injection Hq' as <-.
  apply float_ltb_key. exists p, r. split; [exact Hp|]. split; [exact Hr|].
  destruct Hle as [Hle| <-]; [eapply key_lt_trans; eauto|exact Hlt].
Qed.

Lemma float_ltb_trans (x y z : PrimFloat.float) :
  (x <? y)%float = true -> (y <? z)%float = true -> (x <? z)%float = true.
Proof.
  intros H1 H2. eapply float_leb_ltb_trans; [|exact H2].
  now apply float_ltb_leb.
Qed.

Lemma float_leb_trans (x y z : PrimFloat.float) :
  (x <=? y)%float = true -> (y <=? z)%float = true -> (x <=? z)%float = true.
Proof.
  intros H1 H2. apply float_leb_key in H1, H2.
  destruct H1 as (p & q & Hp & Hq & Hle), H2 as (q' & r & Hq' & Hr & Hle').
  rewrite Hq in Hq'. injection Hq' as <-.
  apply float_leb_key. exists p, r. split; [exact Hp|]. split; [exact Hr|].
  destruct Hle as [Hle| ->]; destruct Hle' as [Hle'| <-]; auto.
  left. eapply key_lt_trans; eauto.
Qed.

Lemma float_leb_refl (x : PrimFloat.float) :
  PrimFloat.is_nan x = false -> (x <=? x)%float = true.
Proof.
  intros H. apply float_is_nan_key in H. destruct H as (p & Hp).
  apply float_leb_key. exists p, p. auto.
Qed.

Lemma float_ltb_not_leb (x y : PrimFloat.float) :
  (x <? y)%float = true -> (y <=? x)%float = false.
Proof.
  intros H. apply float_ltb_key in H. destruct H as (p & q & Hp & Hq & Hlt).
  destruct (y <=? x)%float eqn:E; [|reflexivity].
  apply float_leb_key in E. destruct E as (q' & p' & Hq' & Hp' & Hle).
  rewrite Hq in Hq'. rewrite Hp in Hp'.
  injection Hq' as <-. injection Hp' as <-.
  destruct Hle as [Hle| ->].
  - now apply key_lt_asym in Hlt.
  - now apply key_lt_irrefl in Hlt.
Qed.

(** ** [np.argmax] on floats *)

Lemma f64_argmax_from_inside (t : list F64.float) (i best : Z) (bv : F64.float) :
  0 <= best < i ->
  0 <= F64.argmax_from t i best bv < i + Z.of_nat (length t).
Proof.
  revert i best bv. induction t as [|x t IH]; intros i best bv H; simpl.
  - lia.
  - destruct (x <=? bv)%float.
    + specialize (IH (i + 1) best bv ltac:(lia)). lia.
    + destruct (PrimFloat.is_nan x); [lia|].
      specialize (IH (i + 1) i x ltac:(lia)). lia.
Qed.

Lemma f64_np_argmax_inside (l : list F64.float) :
  l <> [] ->
  exists k, F64.np_argmax l = Ok k /\ 0 <= k < Z.of_nat (length l).
Proof.
  destruct l as [|x t]; [congruence|]. intros _. simpl.
  eexists. split; [reflexivity|].
  destruct (PrimFloat.is_nan x); [lia|].
  pose proof (@f64_argmax_from_inside t 1 0 x ltac:(lia)). lia.
Qed.

Lemma f64_first_max_extend (pre : list F64.float) (b : nat) (x : F64.float) :
  F64.first_max pre b ->
  (x <=? nth b pre PrimFloat.zero)%float = true ->
  F64.first_max (pre ++ [x]) b.
Proof.
  intros (Hb & Hmax & Hfirst) Hle. unfold F64.first_max.
  rewrite length_app. simpl length.
  rewrite (app_nth1 pre [x] PrimFloat.zero Hb). split; [lia|]. split.
  - intros j Hj. destruct (Nat.eq_dec j (length pre)) as [->|Hne].
    + rewrite nth_middle. exact Hle.
    + rewrite app_nth1 by lia. apply Hmax. lia.
  - intros j Hj. rewrite app_nth1 by lia. now apply Hfirst.
Qed.

Lemma f64_first_max_replace (pre : list F64.float) (b : nat) (x : F64.float) :
  F64.first_max pre b ->
  (x <=? nth b pre PrimFloat.zero)%float = false ->
  PrimFloat.is_nan x = false ->
  F64.first_max (pre ++ [x]) (length pre).
Proof.
  intros (Hb & Hmax & Hfirst) Hle Hx. unfold F64.first_max.
  rewrite length_app. simpl length. rewrite nth_middle.
  assert (Hbv : PrimFloat.is_nan (nth b pre PrimFloat.zero) = false).
  { apply (proj1 (@float_leb_not_nan _ _ (Hmax b Hb))). }
  pose proof (@float_not_leb_ltb _ _ Hle Hbv Hx) as Hlt.
  assert (Hall : forall j, (j < length pre)%nat ->
                   (nth j pre PrimFloat.zero <? x)%float = true).
  { intros j Hj. eapply float_leb_ltb_trans; [apply Hmax; exact Hj|exact Hlt]. }
  split; [lia|]. split.
  - intros j Hj. destruct (Nat.eq_dec j (length pre)) as [->|Hne].
    + rewrite nth_middle. now apply float_leb_refl.
    + rewrite app_nth1 by lia. apply float_ltb_leb. apply Hall. lia.
  - intros j Hj. rewrite app_nth1 by lia. now apply Hall.
Qed.

Lemma f64_argmax_from_spec (t pre : list F64.float) (b : nat) :
  F64.first_max pre b ->
  exists n,
    F64.argmax_from t (Z.of_nat (length pre)) (Z.of_nat b)
      (nth b pre PrimFloat.zero) = Z.of_nat n /\
    (F64.first_nan (pre ++ t) n \/ F64.first_max (pre ++ t) n).
Proof.
  revert pre b. induction t as [|x t IH]; intros pre b Hb.
  - exists b. simpl. rewrite app_nil_r. auto.
  - simpl.
    assert (Hlen : Z.of_nat (length pre) + 1 = Z.of_nat (length (pre ++ [x])))
      by (rewrite length_app; simpl; lia).
    replace (pre ++ x :: t) with ((pre ++ [x]) ++ t)
      by (rewrite <- app_assoc; reflexivity).
    destruct (x <=? nth b pre PrimFloat.zero)%float eqn:Hle.
    + pose proof (@f64_first_max_extend pre b x Hb Hle) as Hx.
      destruct (IH _ _ Hx) as (n & Hn & Hfm).
      exists n. rewrite app_nth1 in Hn by apply Hb. rewrite Hlen. auto.
    + destruct (PrimFloat.is_nan x) eqn:Hnan.
      * exists (length pre). split; [reflexivity|]. left.
        unfold F64.first_nan. rewrite !length_app. simpl length.
        rewrite <- app_assoc. simpl app. rewrite nth_middle.
        split; [lia|]. split; [exact Hnan|].
        intros j Hj. rewrite app_nth1 by lia.
        destruct Hb as (Hb & Hmax & _).
        apply (proj1 (@float_leb_not_nan _ _ (Hmax j Hj))).
      * pose proof (@f64_first_max_replace pre b x Hb Hle Hnan) as Hx.
        destruct (IH _ _ Hx) as (n & Hn & Hfm).
        exists n. rewrite nth_middle in Hn. rewrite Hlen. auto.
Qed.

Lemma f64_np_argmax_spec (l : list F64.float) :
  l <> [] ->
  exists n, F64.np_argmax l = Ok (Z.of_nat n) /\
            (F64.first_nan l n \/ F64.first_max l n).
Proof.
  destruct l as [|x t]; [congruence|]. intros _. simpl.
  destruct (PrimFloat.is_nan x) eqn:Hnan.
  - exists 0%nat. split; [reflexivity|]. left.
    unfold F64.first_nan. simpl. split; [lia|]. split; [exact Hnan|].
    intros j Hj. lia.
  - assert (H0 : F64.first_max [x] 0).
    { unfold F64.first_max. simpl. split; [lia|]. split.
      - intros [|j] Hj; [now apply float_leb_refl|lia].
      - intros j Hj. lia. }
    destruct (@f64_argmax_from_spec t [x] 0%nat H0) as (n & Hn & Hfm).
    exists n. simpl in *. now rewrite Hn.
Qed.

(** ** The binary64 environment *)

Lemma f64_draw_floats_spec (n : nat) (w : F64.World) :
  exists l,
    F64.draw_floats n w
    = (Ok l, F64.mkWorld (F64.floats w) (F64.fpos w + n) (F64.ints w)
               (F64.ipos w) (F64.pulls w)) /\
    length l = n.
Proof.
  revert w. induction n as [|n IH]; intros w.
  - exists []. simpl. unfold F64.ret. rewrite Nat.add_0_r. destruct w; auto.
  - simpl. unfold F64.bind, F64.np_random_random at 1.
    destruct (IH (F64.mkWorld (F64.floats w) (S (F64.fpos w)) (F64.ints w)
                    (F64.ipos w) (F64.pulls w)))
      as (l & Hl & Hlen).
    rewrite Hl. simpl. exists (F64.floats w (F64.fpos w) :: l).
    unfold F64.ret. split.
    + do 2 f_equal. lia.
    + simpl. now rewrite Hlen.
Qed.

Lemma f64_init_ok (K0 : Z) (w w' : F64.World) (b : F64.BernoulliBandit) :
  F64.BernoulliBandit_init K0 w = (Ok b, w') ->
  F64.bandit_ok b /\ F64.K b = K0.
Proof.
  unfold F64.BernoulliBandit_init, F64.bind, F64.np_random_uniform.
  destruct (Z.ltb_spec K0 0) as [Hneg|Hpos]; [discriminate|].
  destruct (f64_draw_floats_spec (Z.to_nat K0) w) as (l & Hl & Hlen).
  rewrite Hl. unfold F64.lift, F64.ret.
  destruct (F64.np_argmax l) as [i|e] eqn:Harg; [|discriminate].
  destruct (np_getitem l i) as [p|e]; [|discriminate].
  intros H. injection H as <- _. split; [|reflexivity].
  constructor; simpl.
  - destruct l as [|x t]; [discriminate|]. simpl in Hlen. lia.
  - lia.
Qed.

Lemma f64_step_inside (b : F64.BernoulliBandit) (k : Z) (w : F64.World) :
  0 <= k < Z.of_nat (length (F64.probs b)) ->
  let r := if (F64.floats w (F64.fpos w)
               <? nth (Z.to_nat k) (F64.probs b) PrimFloat.zero)%float
           then 1 else 0 in
  F64.step b k w
  = (Ok r, F64.mkWorld (F64.floats w) (S (F64.fpos w)) (F64.ints w)
             (F64.ipos w) (F64.pulls w ++ [(k, r)])).
Proof.
  intros H. unfold F64.step, F64.bind, F64.np_random_rand,
    F64.np_random_random, F64.lift.
  rewrite (np_getitem_inside (F64.probs b) PrimFloat.zero H). reflexivity.
Qed.

Lemma f64_ucb_scores_length np_log coef t (es : list F64.float) (cs : list Z) :
  length es = length cs ->
  length (F64.ucb_scores np_log coef t es cs) = length es.
Proof.
  revert cs. induction es as [|e es IH]; intros [|c cs] H; simpl in *;
    try lia. f_equal. apply IH. lia.
Qed.

Lemma f64_ucb_scores_nth np_log coef t (es : list F64.float) (cs : list Z)
      (i : nat) :
  length es = length cs -> (i < length es)%nat ->
  nth i (F64.ucb_scores np_log coef t es cs) PrimFloat.zero
  = F64.ucb_score np_log coef t (nth i es PrimFloat.zero) (nth i cs 0).
Proof.
  revert cs i. induction es as [|e es IH]; intros [|c cs] [|i] H Hi;
    simpl in *; try lia; try reflexivity. apply IH; lia.
Qed.

(** ** One round in binary64 *)

Lemma f64_pull_and_update (b : F64.BernoulliBandit) (cs : list Z)
      (es : list F64.float) (k : Z) (mk : list F64.float -> F64.Solver)
      (w0 w : F64.World) :
  Z.of_nat (length cs) = Z.of_nat (length (F64.probs b)) ->
  Z.of_nat (length es) = Z.of_nat (length (F64.probs b)) ->
  0 <= k < Z.of_nat (length (F64.probs b)) ->
  F64.same_pulls w0 w ->
  exists r w',
    F64.bind (F64.step b k)
      (fun r => F64.bind (F64.lift (F64.update_estimates cs es k r))
                  (fun es' => F64.ret (k, mk es'))) w
    = (Ok (k, mk (list_set es (Z.to_nat k)
                    (F64.incremental_mean (nth (Z.to_nat k) es PrimFloat.zero)
                       (nth (Z.to_nat k) cs 0) r))), w') /\
    (r = 0 \/ r = 1) /\ F64.after_pull w0 w' k r.
Proof.
  intros Hcs Hes Hk (Hf & Hi & Hp).
  unfold F64.bind at 1. rewrite f64_step_inside by exact Hk. cbv zeta.
  set (r := if (_ <? _)%float then 1 else 0).
  exists r. eexists. split; [|split].
  - unfold F64.bind, F64.lift, F64.update_estimates, rbind, F64.ret.
    rewrite (np_getitem_inside es PrimFloat.zero) by lia.
    rewrite (np_getitem_inside cs 0) by lia.
    rewrite np_setitem_inside by lia. reflexivity.
  - subst r. destruct (_ <? _)%float; auto.
  - unfold F64.after_pull. simpl. rewrite Hp. auto.
Qed.

Lemma f64_randint_inside (Kb : Z) (w : F64.World) :
  1 <= Kb -> 0 <= F64.randint_value 0 Kb w < Kb.
Proof.
  intros H. unfold F64.randint_value. rewrite Z.sub_0_r, Z.add_0_l.
  apply Z.mod_pos_bound. lia.
Qed.

Lemma f64_greedy_choice (thr : F64.float) (es : list F64.float) (Kb : Z)
      (B : Type) (cont : Z -> F64.M B) (w : F64.World) :
  1 <= Kb -> Z.of_nat (length es) = Kb ->
  exists k w1,
    F64.bind F64.np_random_random
      (fun u => F64.bind (if (u <? thr)%float
                          then F64.np_random_randint 0 Kb
                          else F64.lift (F64.np_argmax es))
                  (fun k => cont k)) w
    = cont k w1 /\
    0 <= k < Kb /\ F64.same_pulls w w1 /\
    (if (F64.floats w (F64.fpos w) <? thr)%float
     then k = F64.randint_value 0 Kb w
     else F64.np_argmax es = Ok k).
Proof.
  intros HK Hes. unfold F64.bind at 1, F64.np_random_random at 1.
  destruct (F64.floats w (F64.fpos w) <? thr)%float.
  - unfold F64.bind, F64.np_random_randint.
    destruct (Z.leb_spec Kb 0) as [Hbad|_]; [lia|].
    eexists; eexists. split; [reflexivity|].
    split; [|split]; [| unfold F64.same_pulls; simpl; auto | reflexivity].
    apply (@f64_randint_inside Kb
             (F64.mkWorld (F64.floats w) (S (F64.fpos w)) (F64.ints w)
                (F64.ipos w) (F64.pulls w)) HK).
  - assert (Hne : es <> []) by (intros ->; simpl in Hes; lia).
    destruct (@f64_np_argmax_inside es Hne) as (k & Hk & Hin).
    unfold F64.bind, F64.lift. rewrite Hk.
    eexists; eexists. split; [reflexivity|].
    split; [|split]; [lia| unfold F64.same_pulls; simpl; auto | reflexivity].
Qed.

Lemma f64_run_one_step_spec np_log (s : F64.Solver) (w : F64.World) :
  F64.solver_ok s ->
  exists k r w',
    F64.run_one_step np_log s w
    = (Ok (k, F64.with_policy s
                (F64.policy_next (F64.policy s) (F64.estimates_after s k r))),
       w') /\
    0 <= k < F64.K (F64.bandit s) /\ (r = 0 \/ r = 1) /\
    F64.after_pull w w' k r /\ F64.selects np_log s w k.
Proof.
  intros [Hb Hcs Hes Hc]. destruct Hb as [Hpos Hlen].
  unfold F64.run_one_step, F64.selects, F64.estimates_after,
    F64.estimates_of in *.
  destruct (F64.policy s) as [|epsilon es|es t|t es coef] eqn:Hpol;
    [congruence| | |].
  - destruct (@f64_greedy_choice epsilon es (F64.K (F64.bandit s)) _
                (fun k =>
                   F64.bind (F64.step (F64.bandit s) k)
                     (fun r =>
                        F64.bind
                          (F64.lift (F64.update_estimates (F64.counts s) es k r))
                          (fun es' =>
                             F64.ret (k, F64.with_policy s
                                           (F64.EpsilonGreedy epsilon es')))))
                w Hpos Hes) as (k & w1 & Hrun & Hk & Hsame & Hsel).
    rewrite Hrun.
    destruct (@f64_pull_and_update (F64.bandit s) (F64.counts s) es k
                (fun es' => F64.with_policy s (F64.EpsilonGreedy epsilon es'))
                w w1)
      as (r & w' & Hrun' & Hr & Hpull); try lia; auto.
    exists k, r, w'. simpl. auto.
  - destruct (@f64_greedy_choice (F64.decaying_epsilon (t + 1)) es
                (F64.K (F64.bandit s)) _
                (fun k =>
                   F64.bind (F64.step (F64.bandit s) k)
                     (fun r =>
                        F64.bind
                          (F64.lift (F64.update_estimates (F64.counts s) es k r))
                          (fun es' =>
                             F64.ret (k, F64.with_policy s
                                           (F64.DecayingEpsilonGreedy es'
                                              (t + 1))))))
                w Hpos Hes) as (k & w1 & Hrun & Hk & Hsame & Hsel).
    cbv zeta. rewrite Hrun.
    destruct (@f64_pull_and_update (F64.bandit s) (F64.counts s) es k
                (fun es' => F64.with_policy s
                              (F64.DecayingEpsilonGreedy es' (t + 1)))
                w w1)
      as (r & w' & Hrun' & Hr & Hpull); try lia; auto.
    exists k, r, w'. simpl. auto.
  - cbv zeta.
    assert (Hl : length es = length (F64.counts s)) by lia.
    pose proof (@f64_ucb_scores_length np_log coef (t + 1) es (F64.counts s) Hl)
      as Hsl.
    assert (Hne : F64.ucb_scores np_log coef (t + 1) es (F64.counts s) <> []).
    { intros E. rewrite E in Hsl. simpl in Hsl. lia. }
    destruct (@f64_np_argmax_inside _ Hne) as (k & Hk & Hin).
    unfold F64.bind at 1, F64.lift at 1. rewrite Hk.
    destruct (@f64_pull_and_update (F64.bandit s) (F64.counts s) es k
                (fun es' => F64.with_policy s (F64.UCB (t + 1) es' coef)) w w)
      as (r & w' & Hrun' & Hr & Hpull); try lia; auto.
    { unfold F64.same_pulls; auto. }
    exists k, r, w'. simpl. split; [exact Hrun'|].
    split; [lia|]. auto.
Qed.

Lemma f64_estimates_of_with_policy (s : F64.Solver) (es : list F64.float) :
  F64.policy s <> F64.Abstract ->
  F64.estimates_of (F64.with_policy s (F64.policy_next (F64.policy s) es)) = es.
Proof.
  unfold F64.estimates_of. simpl. destruct (F64.policy s); simpl; congruence.
Qed.

Lemma f64_run_round_spec np_log (s : F64.Solver) (w : F64.World) :
  F64.solver_ok s ->
  exists k r w',
    F64.run_round np_log s w = (Ok (F64.after_round s k r), w') /\
    0 <= k < F64.K (F64.bandit s) /\ (r = 0 \/ r = 1) /\
    F64.after_pull w w' k r /\ F64.selects np_log s w k.
Proof.
  intros Hok.
  destruct (@f64_run_one_step_spec np_log s w Hok)
    as (k & r & w' & Hrun & Hk & Hr & Hp & Hs).
  destruct Hok as [Hb Hcs Hes Hc]. destruct Hb as [Hpos Hlen].
  exists k, r, w'. split; [|auto].
  unfold F64.run_round, F64.bind at 1. rewrite Hrun.
  unfold F64.bind, F64.lift, F64.update_regret, rbind. simpl.
  rewrite (np_getitem_inside (F64.counts s) 0) by lia.
  rewrite np_setitem_inside by lia.
  rewrite (np_getitem_inside (F64.probs (F64.bandit s)) PrimFloat.zero) by lia.
  reflexivity.
Qed.

Lemma f64_after_round_ok (s : F64.Solver) (k r : Z) :
  F64.solver_ok s -> 0 <= k < F64.K (F64.bandit s) ->
  F64.solver_ok (F64.after_round s k r).
Proof.
  intros [Hb Hcs Hes Hc] Hk. constructor; simpl; auto.
  - rewrite list_set_length. exact Hcs.
  - change (Z.of_nat (length (F64.estimates_of
              (F64.with_policy s
                 (F64.policy_next (F64.policy s) (F64.estimates_after s k r)))))
            = F64.K (F64.bandit s)).
    rewrite f64_estimates_of_with_policy by exact Hc.
    unfold F64.estimates_after. rewrite list_set_length. exact Hes.
  - destruct (F64.policy s); simpl; congruence.
Qed.

Lemma f64_after_round_estimates (s : F64.Solver) (k r : Z) :
  F64.policy s <> F64.Abstract ->
  F64.estimates_of (F64.after_round s k r) = F64.estimates_after s k r.
Proof.
  intros Hc. apply (@f64_estimates_of_with_policy s _ Hc).
Qed.

Lemma f64_new_solver_spec (b : F64.BernoulliBandit) (c : F64.PolicyChoice) :
  F64.bandit_ok b ->
  exists s,
    F64.new_solver b c = Ok s /\ F64.solver_ok s /\ F64.bandit s = b /\
    F64.counts s = repeat 0 (Z.to_nat (F64.K b)) /\
    F64.regret s = PrimFloat.zero /\ F64.actions s = [] /\
    F64.regrets s = [] /\
    F64.estimates_of s = repeat (F64.init_prob_of c) (Z.to_nat (F64.K b)) /\
    F64.policy s
    = match c with
      | F64.ChooseEpsilonGreedy epsilon p =>
          F64.EpsilonGreedy epsilon (repeat p (Z.to_nat (F64.K b)))
      | F64.ChooseDecayingEpsilonGreedy p =>
          F64.DecayingEpsilonGreedy (repeat p (Z.to_nat (F64.K b))) 0
      | F64.ChooseUCB coef p =>
          F64.UCB 0 (repeat p (Z.to_nat (F64.K b))) coef
      end.
Proof.
  intros Hb. pose proof Hb as [Hpos Hlen].
  assert (Hz : F64.np_zeros (F64.K b) = Ok (repeat 0 (Z.to_nat (F64.K b)))).
  { unfold F64.np_zeros. destruct (Z.ltb_spec (F64.K b) 0); [lia|reflexivity]. }
  destruct c as [epsilon p|p|coef p]; simpl;
    unfold F64.EpsilonGreedy_init, F64.DecayingEpsilonGreedy_init,
      F64.UCB_init, F64.Solver_init, rbind;
    rewrite Hz;
    (eexists; split; [reflexivity|]);
    (split; [constructor; simpl; auto|]);
    try (unfold F64.estimates_of, list_mul; simpl; rewrite repeat_length; lia);
    try (rewrite repeat_length; lia);
    try discriminate;
    simpl; unfold F64.estimates_of, list_mul; simpl; auto 10.
Qed.

Lemma f64_for_range_add {St} (body : St -> F64.M St) (n m : nat) (s : St)
      (w : F64.World) :
  F64.for_range (n + m) body s w
  = F64.bind (F64.for_range n body s) (fun s' => F64.for_range m body s') w.
Proof.
  unfold F64.bind. revert s w. induction n as [|n IH]; intros s w; simpl.
  - reflexivity.
  - unfold F64.bind. destruct (body s w) as [[s1|e] w1]; [|reflexivity].
    apply IH.
Qed.

Lemma f64_run_calls_total np_log (calls : list Z) (s : F64.Solver)
      (w : F64.World) :
  F64.run_calls np_log s calls w
  = F64.for_range (rounds_executed calls) (F64.run_round np_log) s w.
Proof.
  revert s w. induction calls as [|n rest IH]; intros s w; simpl.
  - reflexivity.
  - rewrite f64_for_range_add. unfold F64.bind, F64.run.
    destruct (F64.for_range (Z.to_nat n) (F64.run_round np_log) s w)
      as [[s1|e] w1]; [apply IH|reflexivity].
Qed.

Section F64LoopInvariant.

Variable np_log : F64.float -> F64.float.

Variable Inv : nat -> F64.Solver -> F64.World -> Prop.

Hypothesis Inv_round :
  forall t s w k r w',
    F64.solver_ok s -> Inv t s w ->
    0 <= k < F64.K (F64.bandit s) -> (r = 0 \/ r = 1) ->
    F64.after_pull w w' k r -> F64.selects np_log s w k ->
    Inv (S t) (F64.after_round s k r) w'.

Lemma f64_for_range_invariant (n t : nat) (s : F64.Solver) (w : F64.World) :
  F64.solver_ok s -> Inv t s w ->
  exists s' w',
    F64.for_range n (F64.run_round np_log) s w = (Ok s', w') /\
    F64.solver_ok s' /\ F64.bandit s' = F64.bandit s /\ Inv (t + n) s' w'.
Proof.
  revert t s w. induction n as [|n IH]; intros t s w Hok Hinv.
  - exists s, w. rewrite Nat.add_0_r. simpl. unfold F64.ret. auto.
  - destruct (@f64_run_round_spec np_log s w Hok)
      as (k & r & w1 & Hrun & Hk & Hr & Hp & Hs).
    destruct (IH (S t) (F64.after_round s k r) w1)
      as (s' & w' & Hloop & Hok' & Hbandit & Hinv').
    + now apply f64_after_round_ok.
    + eapply Inv_round; eauto.
    + exists s', w'. simpl. unfold F64.bind. rewrite Hrun.
      replace (t + S n)%nat with (S t + n)%nat by lia. auto.
Qed.

End F64LoopInvariant.

(** ** Sums in binary64 bookkeeping *)

Lemma Zsum_list_set (l : list Z) (i : nat) (v : Z) :
  (i < length l)%nat -> Zsum (list_set l i v) = Zsum l - nth i l 0 + v.
Proof.
  unfold Zsum. revert i. induction l as [|x t IH]; intros [|i] H;
    simpl in *; try lia.
  rewrite IH by lia. lia.
Qed.

Lemma Zsum_repeat_0 (n : nat) : Zsum (repeat 0 n) = 0.
Proof.
  unfold Zsum. induction n; simpl; lia.
Qed.

Lemma f64_running_sum_snoc (gs : list F64.float) (g : F64.float) :
  F64.running_sum (gs ++ [g]) = (F64.running_sum gs + g)%float.
Proof.
  unfold F64.running_sum. rewrite fold_left_app. reflexivity.
Qed.

Lemma f64_running_estimate_snoc (rs : list Z) (e : F64.float) (c r : Z) :
  F64.running_estimate e c (rs ++ [r])
  = F64.incremental_mean (F64.running_estimate e c rs)
      (c + Z.of_nat (length rs)) r.
Proof.
  revert e c. induction rs as [|x t IH]; intros e c.
  - simpl. now rewrite Z.add_0_r.
  - cbn [app F64.running_estimate length]. rewrite IH.
    replace (c + 1 + Z.of_nat (length t)) with (c + Z.of_nat (S (length t)))
      by lia.
    reflexivity.
Qed.

(** ** Pull counts and regret in binary64 *)

Lemma f64_accounting_round np_log (b : F64.BernoulliBandit) t s w k r w' :
  F64.solver_ok s -> F64.accounting_inv b t s w ->
  0 <= k < F64.K (F64.bandit s) -> (r = 0 \/ r = 1) ->
  F64.after_pull w w' k r -> F64.selects np_log s w k ->
  F64.accounting_inv b (S t) (F64.after_round s k r) w'.
Proof.
  intros Hok (Hb & Ha & Hr & Hc & Hreg & Hhist) Hk _ _ _.
  pose proof (F64.sk_counts Hok) as Hcs.
  assert (Hnew : (F64.regret s + F64.gap (F64.bandit s) k)%float
                 = F64.running_sum (map (F64.gap b) (F64.actions s ++ [k]))).
  { rewrite map_app. simpl map. rewrite f64_running_sum_snoc, Hreg, Hb.
    reflexivity. }
  unfold F64.accounting_inv, F64.after_round.
  cbn [F64.bandit F64.counts F64.regret F64.actions F64.regrets].
  split; [exact Hb|]. split; [rewrite length_app; simpl; lia|].
  split; [rewrite length_app; simpl; lia|].
  split; [rewrite Zsum_list_set by lia; lia|].
  split; [exact Hnew|].
  intros i Hi. destruct (Nat.eq_dec i t) as [->|Hne].
  - rewrite <- Hr at 1. rewrite nth_middle.
    rewrite firstn_all2 by (rewrite length_app; simpl; lia).
    exact Hnew.
  - rewrite app_nth1 by lia. rewrite firstn_app.
    replace (S i - length (F64.actions s))%nat with 0%nat by lia.
    rewrite firstn_O, app_nil_r. apply Hhist. lia.
Qed.

(** C1, as the code has it.  Whatever the policy and however the rounds
    are split over calls of [run], once [n] rounds have been executed on
    a fresh solver the pull counts sum to [n], and the regret recorded
    after round [t] is the binary64 sum, added from the left starting at
    0, of the gaps [best_prob - probs[k]] of the arms pulled in rounds
    [1..t]. *)
Theorem f64_run_counts_and_regret
        (np_log : F64.float -> F64.float)
        (K0 : Z) (w0 w1 : F64.World) (b : F64.BernoulliBandit)
        (c : F64.PolicyChoice) (calls : list Z) (w : F64.World) :
  F64.BernoulliBandit_init K0 w0 = (Ok b, w1) ->
  exists s0 s w',
    F64.new_solver b c = Ok s0 /\
    F64.run_calls np_log s0 calls w = (Ok s, w') /\
    let n := rounds_executed calls in
    length (F64.actions s) = n /\
    length (F64.regrets s) = n /\
    Zsum (F64.counts s) = Z.of_nat n /\
    (forall t, (1 <= t <= n)%nat ->
       nth (t - 1) (F64.regrets s) PrimFloat.zero
       = F64.running_sum (map (F64.gap b) (firstn t (F64.actions s)))) /\
    F64.regret s = F64.running_sum (map (F64.gap b) (F64.actions s)).
Proof.
  intros Hinit. destruct (@f64_init_ok _ _ _ _ Hinit) as [Hb _].
  destruct (@f64_new_solver_spec b c Hb)
    as (s0 & Hnew & Hok & Hbs & Hcs & Hrg & Hacts & Hrgs & _).
  destruct (@f64_for_range_invariant np_log (F64.accounting_inv b)
              (@f64_accounting_round np_log b)
              (rounds_executed calls) 0 s0 w Hok)
    as (s & w' & Hrun & _ & _ & (_ & Ha & Hr & Hc & Hreg & Hhist)).
  { unfold F64.accounting_inv.
    rewrite Hbs, Hcs, Hrg, Hacts, Hrgs, Zsum_repeat_0.
    simpl. repeat split; auto. intros i Hi; lia. }
  exists s0, s, w'. rewrite f64_run_calls_total. cbv zeta.
  rewrite Nat.add_0_l in *.
  split; [exact Hnew|]. split; [exact Hrun|]. split; [exact Ha|].
  split; [exact Hr|]. split; [exact Hc|]. split; [|exact Hreg].
  intros t Ht. specialize (Hhist (t - 1)%nat ltac:(lia)).
  replace (S (t - 1)) with t in Hhist by lia. exact Hhist.
Qed.

(** ** Estimates in binary64 *)

Lemma f64_mean_round np_log (prior : F64.float) w_start t s w k r w' :
  F64.solver_ok s -> F64.mean_inv prior w_start t s w ->
  0 <= k < F64.K (F64.bandit s) -> (r = 0 \/ r = 1) ->
  F64.after_pull w w' k r -> F64.selects np_log s w k ->
  F64.mean_inv prior w_start (S t) (F64.after_round s k r) w'.
Proof.
  intros Hok (log & Hlen & Hlog & Harms) Hk Hr (_ & _ & Hp) _.
  exists (log ++ [(k, r)]). split; [|split].
  { rewrite length_app. simpl. lia. }
  { rewrite Hp, Hlog, app_assoc. reflexivity. }
  intros a Ha.
  change (F64.bandit (F64.after_round s k r)) with (F64.bandit s) in Ha.
  destruct (Harms a Ha) as (Hbin & Hcnt & Hest).
  rewrite rewards_of_app.
  rewrite (@f64_after_round_estimates s k r (F64.sk_concrete Hok)).
  unfold F64.estimates_after. cbn [F64.after_round F64.counts rewards_of].
  pose proof (F64.sk_counts Hok) as Hcs.
  pose proof (F64.sk_estimates Hok) as Hes.
  destruct (Z.eqb_spec k a) as [->|Hne].
  - rewrite !list_set_nth_same by lia.
    rewrite length_app, f64_running_estimate_snoc. simpl length.
    rewrite Hcnt, Hest. split; [|split].
    + apply Forall_app. split; auto.
    + lia.
    + reflexivity.
  - rewrite !list_set_nth_other by lia. rewrite app_nil_r. auto.
Qed.

(** C2, as the code has it.  For each of the three policies and any
    float prior: after any number of rounds, every arm has been counted
    once per reward it received, every reward is 0 or 1, and the
    estimate of the arm is what the binary64 updates
    [e <- e + 1/(c + 1) * (r - e)], with [c = 0, 1, 2, ...], make of the
    prior and the rewards of the arm in the order received. *)
Theorem f64_estimates_follow_updates
        (np_log : F64.float -> F64.float)
        (K0 : Z) (w0 w1 : F64.World) (b : F64.BernoulliBandit)
        (c : F64.PolicyChoice) (calls : list Z) (w : F64.World) :
  F64.BernoulliBandit_init K0 w0 = (Ok b, w1) ->
  exists s0 s w' log,
    F64.new_solver b c = Ok s0 /\
    F64.run_calls np_log s0 calls w = (Ok s, w') /\
    F64.pulls w' = F64.pulls w ++ log /\
    length log = rounds_executed calls /\
    forall a, 0 <= a < F64.K b ->
      let rs := rewards_of a log in
      Forall binary rs /\
      nth (Z.to_nat a) (F64.counts s) 0 = Z.of_nat (length rs) /\
      nth (Z.to_nat a) (F64.estimates_of s) PrimFloat.zero
      = F64.running_estimate (F64.init_prob_of c) 0 rs.
Proof.
  intros Hinit. destruct (@f64_init_ok _ _ _ _ Hinit) as [Hb _].
  destruct (@f64_new_solver_spec b c Hb)
    as (s0 & Hnew & Hok & Hbs & Hcs & _ & _ & _ & Hes & _).
  destruct (@f64_for_range_invariant np_log
              (F64.mean_inv (F64.init_prob_of c) w)
              (@f64_mean_round np_log (F64.init_prob_of c) w)
              (rounds_executed calls) 0 s0 w Hok)
    as (s & w' & Hrun & _ & Hsame & (log & Hlen & Hlog & Harms)).
  - exists []. rewrite app_nil_r.
    split; [reflexivity|split; [reflexivity|]].
    intros a Ha. simpl. rewrite Hcs, Hes, Hbs in *.
    assert (Hi : (Z.to_nat a < Z.to_nat (F64.K b))%nat) by lia.
    split; [constructor|]. split.
    + apply nth_repeat.
    + rewrite (nth_indep _ PrimFloat.zero (F64.init_prob_of c))
        by (rewrite repeat_length; exact Hi).
      apply nth_repeat.
  - rewrite Hsame, Hbs in Harms.
    exists s0, s, w', log. rewrite f64_run_calls_total.
    split; [exact Hnew|]. split; [exact Hrun|]. split; [exact Hlog|].
    split; [exact Hlen|]. intros a Ha. apply (Harms a Ha).
Qed.

(** ** The concrete binary64 run *)

Lemma f64_demo_floats_on_grid (i : nat) :
  exists k, 0 <= k < 2 ^ 53 /\ F64.demo_floats i = F64.grid k.
Proof.
  destruct i as [|[|[|[|[|[|[|i]]]]]]];
    [exists 6755399441055745|exists 3002399751580330
    |exists (2 ^ 51)|exists (2 ^ 49)|exists (2 ^ 51)|exists (2 ^ 52)
    |exists (2 ^ 51)|exists (2 ^ 52)];
    (split; [lia|vm_compute; reflexivity]).
Qed.

Lemma f64_demo_init :
  F64.BernoulliBandit_init 2 F64.demo_world
  = (Ok F64.demo_bandit, F64.demo_world_2).
Proof. vm_compute. reflexivity. Qed.

Lemma f64_demo_run :
  F64.new_solver F64.demo_bandit
    (F64.ChooseEpsilonGreedy F64.one_half PrimFloat.one)
  = Ok F64.demo_solver /\
  F64.run F64.demo_log F64.demo_solver 3 F64.demo_world_2
  = (Ok F64.demo_solver_3, F64.demo_world_8).
Proof. split; vm_compute; reflexivity. Qed.

Lemma f64_demo_unit_floats : F64.unit_floats F64.demo_world_2.
Proof.
  intros i. do 8 (destruct i as [|i]; [split; vm_compute; reflexivity|]).
  split; vm_compute; reflexivity.
Qed.

(** C1, as stated, fails on the code.  The arms have the probabilities
    [b = 0.75 + 2^-53] and [p], the largest value of the generator below
    one third.  Three rounds of epsilon-greedy that pull arm 1 each time
    leave the regret 1.2500000000000004, which is neither the closed form
    [b * 3 - (p + p + p)] computed in binary64 (1.2500000000000007) nor
    that closed form computed exactly. *)
Lemma f64_regret_counterexample :
  F64.BernoulliBandit_init 2 F64.demo_world
  = (Ok F64.demo_bandit, F64.demo_world_2) /\
  F64.new_solver F64.demo_bandit
    (F64.ChooseEpsilonGreedy F64.one_half PrimFloat.one)
  = Ok F64.demo_solver /\
  F64.run F64.demo_log F64.demo_solver 3 F64.demo_world_2
  = (Ok F64.demo_solver_3, F64.demo_world_8) /\
  F64.actions F64.demo_solver_3 = [1; 1; 1] /\
  F64.regret F64.demo_solver_3
  <> F64.float_closed_form F64.demo_bandit (F64.actions F64.demo_solver_3) /\
  F64.exact_scaled (F64.regret F64.demo_solver_3)
  <> F64.exact_closed_form F64.demo_bandit (F64.actions F64.demo_solver_3).
Proof.
  split; [exact f64_demo_init|]. split; [apply f64_demo_run|].
  split; [apply f64_demo_run|]. split; [reflexivity|]. split.
  - intros H.
    assert (E : (F64.regret F64.demo_solver_3
                 =? F64.float_closed_form F64.demo_bandit
                      (F64.actions F64.demo_solver_3))%float = true).
    { rewrite <- H. vm_compute. reflexivity. }
    vm_compute in E. discriminate E.
  - vm_compute. intros H. injection H as H. discriminate H.
Qed.

(** C2, as stated, fails on the code.  In the same run arm 1 receives
    the rewards 1, 0, 0 and its estimate ends at 0.33333333333333337:
    not the mean computed in binary64 (0.3333333333333333), and not
    exactly one third, which no float is. *)
Lemma f64_estimate_counterexample :
  F64.BernoulliBandit_init 2 F64.demo_world
  = (Ok F64.demo_bandit, F64.demo_world_2) /\
  F64.new_solver F64.demo_bandit
    (F64.ChooseEpsilonGreedy F64.one_half PrimFloat.one)
  = Ok F64.demo_solver /\
  F64.run F64.demo_log F64.demo_solver 3 F64.demo_world_2
  = (Ok F64.demo_solver_3, F64.demo_world_8) /\
  rewards_of 1 (F64.pulls F64.demo_world_8) = [1; 0; 0] /\
  nth 1 (F64.estimates_of F64.demo_solver_3) PrimFloat.zero
  <> F64.float_mean [1; 0; 0] /\
  ~ F64.exactly_mean
      (nth 1 (F64.estimates_of F64.demo_solver_3) PrimFloat.zero) [1; 0; 0].
Proof.
  split; [exact f64_demo_init|]. split; [apply f64_demo_run|].
  split; [apply f64_demo_run|]. split; [reflexivity|]. split.
  - intros H.
    assert (E : (nth 1 (F64.estimates_of F64.demo_solver_3) PrimFloat.zero
                 =? F64.float_mean [1; 0; 0])%float = true).
    { rewrite <- H. vm_compute. reflexivity. }
    vm_compute in E. discriminate E.
  - vm_compute. intros H. discriminate H.
Qed.

(** The prior is not always forgotten by the first update: from the
    prior [1e20] one reward 1 leaves the estimate 0, since [1 - 1e20]
    rounds to [-1e20]. *)
Example f64_large_prior_not_forgotten :
  F64.running_estimate F64.large_prior 0 [1] = PrimFloat.zero /\
  F64.running_estimate PrimFloat.one 0 [1] = PrimFloat.one.
Proof. split; vm_compute; reflexivity. Qed.

Lemma f64_run_counts_and_regret_witness :
  exists s0 s w',
    F64.new_solver F64.demo_bandit
      (F64.ChooseUCB PrimFloat.one PrimFloat.one) = Ok s0 /\
    F64.run_calls F64.demo_log s0 [3; 2] F64.demo_world_2 = (Ok s, w') /\
    Zsum (F64.counts s) = 5 /\
    length (F64.regrets s) = 5%nat /\
    F64.regret s
    = F64.running_sum (map (F64.gap F64.demo_bandit) (F64.actions s)).
Proof.
  destruct (@f64_run_counts_and_regret F64.demo_log 2 F64.demo_world
              F64.demo_world_2 F64.demo_bandit
              (F64.ChooseUCB PrimFloat.one PrimFloat.one) [3; 2]
              F64.demo_world_2 f64_demo_init)
    as (s0 & s & w' & Hnew & Hrun & _ & Hrl & Hsum & _ & Hreg).
  exists s0, s, w'. auto.
Defined.

Lemma f64_estimates_follow_updates_witness :
  exists s0 s w' log,
    F64.new_solver F64.demo_bandit
      (F64.ChooseEpsilonGreedy F64.one_half PrimFloat.one) = Ok s0 /\
    F64.run_calls F64.demo_log s0 [3] F64.demo_world_2 = (Ok s, w') /\
    F64.pulls w' = log /\
    nth 1 (F64.estimates_of s) PrimFloat.zero
    = F64.running_estimate PrimFloat.one 0 (rewards_of 1 log).
Proof.
  destruct (@f64_estimates_follow_updates F64.demo_log 2 F64.demo_world
              F64.demo_world_2 F64.demo_bandit
              (F64.ChooseEpsilonGreedy F64.one_half PrimFloat.one) [3]
              F64.demo_world_2 f64_demo_init)
    as (s0 & s & w' & log & Hnew & Hrun & Hlog & _ & Harms).
  exists s0, s, w', log.
  split; [exact Hnew|]. split; [exact Hrun|]. split; [exact Hlog|].
  apply (Harms 1). simpl. lia.
Defined.

(** ** Round counters in binary64 *)

Lemma f64_class_round np_log p0 w_start t s w k r w' :
  F64.solver_ok s -> F64.class_inv p0 w_start t s w ->
  0 <= k < F64.K (F64.bandit s) -> (r = 0 \/ r = 1) ->
  F64.after_pull w w' k r -> F64.selects np_log s w k ->
  F64.class_inv p0 w_start (S t) (F64.after_round s k r) w'.
Proof.
  intros _ (Hclass & Hfl & Hcount) _ _ (Hf & _ & _) _.
  unfold F64.class_inv, F64.after_round. cbn [F64.policy].
  rewrite Hf, Hfl.
  destruct p0, (F64.policy s); simpl in *; repeat split; auto; try lia.
Qed.

Lemma f64_run_keeps_class np_log (b : F64.BernoulliBandit)
      (c : F64.PolicyChoice) (m : nat) (w : F64.World) :
  F64.bandit_ok b ->
  exists s0 s wm,
    F64.new_solver b c = Ok s0 /\
    F64.run np_log s0 (Z.of_nat m) w = (Ok s, wm) /\
    F64.solver_ok s /\ F64.bandit s = b /\
    F64.class_inv (F64.policy s0) w m s wm /\
    F64.policy s0
    = match c with
      | F64.ChooseEpsilonGreedy epsilon p =>
          F64.EpsilonGreedy epsilon (repeat p (Z.to_nat (F64.K b)))
      | F64.ChooseDecayingEpsilonGreedy p =>
          F64.DecayingEpsilonGreedy (repeat p (Z.to_nat (F64.K b))) 0
      | F64.ChooseUCB coef p =>
          F64.UCB 0 (repeat p (Z.to_nat (F64.K b))) coef
      end.
Proof.
  intros Hb.
  destruct (@f64_new_solver_spec b c Hb)
    as (s0 & Hnew & Hok & Hbs & _ & _ & _ & _ & _ & Hpol).
  destruct (@f64_for_range_invariant np_log (F64.class_inv (F64.policy s0) w)
              (@f64_class_round np_log (F64.policy s0) w) m 0 s0 w Hok)
    as (s & wm & Hrun & Hok' & Hsame & Hinv).
  { unfold F64.class_inv. rewrite Hpol. destruct c; simpl; auto. }
  exists s0, s, wm. unfold F64.run. rewrite Nat2Z.id.
  split; [exact Hnew|]. split; [exact Hrun|]. split; [exact Hok'|].
  split; [congruence|]. split; [exact Hinv|exact Hpol].
Qed.

(** ** The decaying threshold in binary64 *)

Lemma f64_suppressed_from_spec (n : nat) (t0 t : Z) :
  F64.suppressed_from n t0 = true ->
  t0 <= t < t0 + Z.of_nat n ->
  (F64.decaying_epsilon t <=? PrimFloat.zero)%float = true.
Proof.
  revert t0. induction n as [|n IH]; intros t0 H Ht; [lia|].
  cbn [F64.suppressed_from] in H.
  destruct (F64.decaying_epsilon t0 <=? PrimFloat.zero)%float eqn:E;
    [|discriminate].
  destruct (Z.eq_dec t t0) as [->|Hne]; [exact E|].
  apply (IH (t0 + 1) H). lia.
Qed.

Lemma f64_rising_from_spec (n : nat) (t0 t : Z) :
  F64.rising_from n t0 = true ->
  t0 <= t < t0 + Z.of_nat n ->
  (F64.decaying_epsilon t <? F64.decaying_epsilon (t + 1))%float = true /\
  (F64.decaying_epsilon (t + 1) <? F64.one_hundredth)%float = true.
Proof.
  revert t0. induction n as [|n IH]; intros t0 H Ht; [lia|].
  cbn [F64.rising_from] in H.
  destruct (F64.decaying_epsilon t0 <? F64.decaying_epsilon (t0 + 1))%float
    eqn:E1; [|discriminate].
  destruct (F64.decaying_epsilon (t0 + 1) <? F64.one_hundredth)%float
    eqn:E2; [|discriminate].
  destruct (Z.eq_dec t t0) as [->|Hne]; [auto|].
  apply (IH (t0 + 1) H). lia.
Qed.

Lemma f64_suppressed_first_100 : F64.suppressed_from 100 1 = true.
Proof. vm_compute. reflexivity. Qed.

Lemma f64_rising_to_million :
  F64.rising_from (Z.to_nat 999900) 100 = true.
Proof. vm_compute. reflexivity. Qed.

Lemma f64_decaying_epsilon_100 : F64.decaying_epsilon 100 = PrimFloat.zero.
Proof. vm_compute. reflexivity. Qed.

Lemma f64_decaying_epsilon_rises (k : nat) (t1 : Z) :
  100 <= t1 -> t1 + Z.of_nat (S k) <= 1000000 ->
  (F64.decaying_epsilon t1
   <? F64.decaying_epsilon (t1 + Z.of_nat (S k)))%float = true.
Proof.
  induction k as [|k IH]; intros H1 H2.
  - apply (@f64_rising_from_spec _ 100 t1 f64_rising_to_million). lia.
  - eapply float_ltb_trans; [apply IH; lia|].
    replace (t1 + Z.of_nat (S (S k))) with (t1 + Z.of_nat (S k) + 1) by lia.
    apply (@f64_rising_from_spec _ 100 _ f64_rising_to_million). lia.
Qed.

(** C6, as stated, fails on the code: from round 1000000000 to round
    1000000001 the threshold [0.01 - 1 / t] does not increase; both
    rounds compare the draw with the same float. *)
Lemma f64_threshold_counterexample :
  100 <= 1000000000 < 1000000001 /\
  F64.decaying_epsilon 1000000000 = F64.decaying_epsilon 1000000001 /\
  (F64.decaying_epsilon 1000000000
   <? F64.decaying_epsilon 1000000001)%float = false.
Proof.
  split; [lia|]. split; vm_compute; reflexivity.
Qed.

(** C6, as the code has it.  After [m] rounds of a fresh decaying
    policy its round counter is [m], so the next round is its round
    [t = m + 1]: it explores exactly when the float drawn is below the
    float [0.01 - 1/t].  For [t <= 100] that threshold is at most 0 and
    the round exploits; at [t = 100] it is exactly 0; from round 100 to
    round 1000000 it increases strictly, is never negative and stays
    below 0.01. *)
Theorem f64_decaying_epsilon_schedule
        (np_log : F64.float -> F64.float)
        (K0 : Z) (w0 w1 : F64.World) (b : F64.BernoulliBandit)
        (init_prob : F64.float) (m : nat) (w : F64.World) :
  F64.BernoulliBandit_init K0 w0 = (Ok b, w1) ->
  F64.unit_floats w ->
  (exists s0 s wm k s' w',
     F64.DecayingEpsilonGreedy_init b init_prob = Ok s0 /\
     F64.run np_log s0 (Z.of_nat m) w = (Ok s, wm) /\
     F64.run_one_step np_log s wm = (Ok (k, s'), w') /\
     let t := Z.of_nat m + 1 in
     let u := F64.floats wm (F64.fpos wm) in
     F64.total_count_of s' = t /\
     ((u <? F64.decaying_epsilon t)%float = true ->
      k = F64.randint_value 0 (F64.K b) wm) /\
     ((u <? F64.decaying_epsilon t)%float = false ->
      F64.np_argmax (F64.estimates_of s) = Ok k) /\
     (t <= 100 ->
      (F64.decaying_epsilon t <=? PrimFloat.zero)%float = true /\
      F64.np_argmax (F64.estimates_of s) = Ok k)) /\
  F64.decaying_epsilon 100 = PrimFloat.zero /\
  (forall t1 t2, 100 <= t1 < t2 -> t2 <= 1000000 ->
     (PrimFloat.zero <=? F64.decaying_epsilon t1)%float = true /\
     (F64.decaying_epsilon t1 <? F64.decaying_epsilon t2)%float = true /\
     (F64.decaying_epsilon t2 <? F64.one_hundredth)%float = true).
Proof.
  intros Hinit Hunit. destruct (@f64_init_ok _ _ _ _ Hinit) as [Hb _].
  split; [|split].
  - destruct (@f64_run_keeps_class np_log b
                (F64.ChooseDecayingEpsilonGreedy init_prob) m w Hb)
      as (s0 & s & wm & Hnew & Hrun & Hok & Hbs & (Hclass & Hfl & Hcount)
          & Hpol0).
    destruct (@f64_run_one_step_spec np_log s wm Hok)
      as (k & r & w' & Hstep & Hk & Hr & Hp & Hsel).
    exists s0, s, wm, k. eexists. exists w'.
    split; [exact Hnew|]. split; [exact Hrun|]. split; [exact Hstep|].
    rewrite Hpol0 in Hclass.
    unfold F64.selects, F64.total_count_of, F64.estimates_of in *.
    cbn [F64.policy F64.with_policy].
    destruct (F64.policy s) as [|e es|es t|t es cf]; try contradiction.
    subst t. rewrite Hbs in Hsel. cbn [F64.policy_next]. cbv zeta.
    split; [reflexivity|].
    destruct (F64.floats wm (F64.fpos wm)
              <? F64.decaying_epsilon (Z.of_nat m + 1))%float eqn:Hlt.
    + split; [intros _; exact Hsel|]. split; [discriminate|].
      intros H100. exfalso.
      assert (Hsup : (F64.decaying_epsilon (Z.of_nat m + 1)
                      <=? PrimFloat.zero)%float = true).
      { apply (@f64_suppressed_from_spec 100 1 _ f64_suppressed_first_100).
        lia. }
      pose proof (@float_ltb_leb_trans _ _ _ Hlt Hsup) as Hneg.
      apply float_ltb_not_leb in Hneg.
      rewrite Hfl in Hneg. destruct (Hunit (F64.fpos wm)) as [H0 _].
      congruence.
    + split; [discriminate|]. split; [intros _; exact Hsel|].
      intros H100. split; [|exact Hsel].
      apply (@f64_suppressed_from_spec 100 1 _ f64_suppressed_first_100).
      lia.
  - exact f64_decaying_epsilon_100.
  - intros t1 t2 Ht Hmax.
    assert (Hrise : (F64.decaying_epsilon t1
                     <? F64.decaying_epsilon t2)%float = true).
    { replace t2 with (t1 + Z.of_nat (S (Z.to_nat (t2 - t1 - 1)))) by lia.
      apply f64_decaying_epsilon_rises; lia. }
    split; [|split; [exact Hrise|]].
    + destruct (Z.eq_dec t1 100) as [->|Hne].
      * rewrite f64_decaying_epsilon_100. reflexivity.
      * apply float_ltb_leb. rewrite <- f64_decaying_epsilon_100.
        replace t1 with (100 + Z.of_nat (S (Z.to_nat (t1 - 100 - 1))))
          by lia.
        apply f64_decaying_epsilon_rises; lia.
    + replace t2 with (t2 - 1 + 1) by lia.
      apply (@f64_rising_from_spec _ 100 (t2 - 1) f64_rising_to_million).
      lia.
Qed.

Lemma f64_decaying_epsilon_schedule_witness :
  exists s0 s wm k s' w',
    F64.DecayingEpsilonGreedy_init F64.demo_bandit PrimFloat.one = Ok s0 /\
    F64.run F64.demo_log s0 3 F64.demo_world_2 = (Ok s, wm) /\
    F64.run_one_step F64.demo_log s wm = (Ok (k, s'), w') /\
    F64.total_count_of s' = 4 /\
    (F64.decaying_epsilon 4 <=? PrimFloat.zero)%float = true /\
    F64.np_argmax (F64.estimates_of s) = Ok k.
Proof.
  destruct (proj1 (@f64_decaying_epsilon_schedule F64.demo_log 2
                     F64.demo_world F64.demo_world_2 F64.demo_bandit
                     PrimFloat.one 3 F64.demo_world_2 f64_demo_init
                     f64_demo_unit_floats))
    as (s0 & s & wm & k & s' & w' & Hnew & Hrun & Hstep & Htot & _ & _ & H100).
  exists s0, s, wm, k, s', w'.
  split; [exact Hnew|]. split; [exact Hrun|]. split; [exact Hstep|].
  split; [exact Htot|]. apply H100. simpl. lia.
Defined.

(** ** The choice of UCB in binary64 *)

(** C7.  After [m] rounds of a fresh UCB solver its counter is [m]; in
    the next round the counter is first raised to [t = m + 1 >= 1], the
    score of arm [i] is the float
    [estimate[i] + coef * sqrt(log t / (2 * (count[i] + 1)))], and the
    arm pulled is the first position of the maximum score, as
    [np.argmax] finds it: the first NaN if a score is NaN, and
    otherwise the first position whose score no other score exceeds. *)
Theorem f64_ucb_selection
        (np_log : F64.float -> F64.float)
        (K0 : Z) (w0 w1 : F64.World) (b : F64.BernoulliBandit)
        (coef init_prob : F64.float) (m : nat) (w : F64.World) :
  F64.BernoulliBandit_init K0 w0 = (Ok b, w1) ->
  exists s0 s wm k s' w' scores,
    F64.UCB_init b coef init_prob = Ok s0 /\
    F64.run np_log s0 (Z.of_nat m) w = (Ok s, wm) /\
    F64.run_one_step np_log s wm = (Ok (k, s'), w') /\
    let t := Z.of_nat m + 1 in
    F64.total_count_of s = Z.of_nat m /\
    F64.total_count_of s' = t /\
    1 <= t /\
    Z.of_nat (length scores) = F64.K b /\
    (forall i, Z.of_nat i < F64.K b ->
       nth i scores PrimFloat.zero
       = (nth i (F64.estimates_of s) PrimFloat.zero
          + coef * PrimFloat.sqrt
                     (np_log (F64.of_int t)
                      / (F64.of_int 2
                         * F64.of_int (nth i (F64.counts s) 0 + 1))))%float) /\
    0 <= k /\
    (F64.first_nan scores (Z.to_nat k) \/ F64.first_max scores (Z.to_nat k)).
Proof.
  intros Hinit. destruct (@f64_init_ok _ _ _ _ Hinit) as [Hb _].
  destruct (@f64_run_keeps_class np_log b (F64.ChooseUCB coef init_prob) m w Hb)
    as (s0 & s & wm & Hnew & Hrun & Hok & Hbs & (Hclass & Hfl & Hcount)
        & Hpol0).
  destruct (@f64_run_one_step_spec np_log s wm Hok)
    as (k & r & w' & Hstep & Hk & Hr & Hp & Hsel).
  pose proof (F64.sk_counts Hok) as Hcs.
  pose proof (F64.sk_estimates Hok) as Hes.
  rewrite Hpol0 in Hclass.
  unfold F64.selects, F64.total_count_of, F64.estimates_of in *.
  destruct (F64.policy s) as [|e es|es t|t es cf] eqn:Hpol;
    try contradiction.
  simpl in Hclass. subst t cf. rewrite Hbs in *.
  assert (Hl : length es = length (F64.counts s)) by lia.
  assert (Hne : F64.ucb_scores np_log coef (Z.of_nat m + 1) es (F64.counts s)
                <> []).
  { intros E.
    pose proof (@f64_ucb_scores_length np_log coef (Z.of_nat m + 1) es
                  (F64.counts s) Hl) as Hsl.
    rewrite E in Hsl. simpl in Hsl. pose proof (F64.bk_pos Hb). lia. }
  destruct (@f64_np_argmax_spec _ Hne) as (n & Hn & Hfm).
  rewrite Hn in Hsel. injection Hsel as <-.
  exists s0, s, wm, (Z.of_nat n). eexists.
  exists w', (F64.ucb_scores np_log coef (Z.of_nat m + 1) es (F64.counts s)).
  split; [exact Hnew|]. split; [exact Hrun|]. split; [exact Hstep|].
  cbv zeta. cbn [F64.policy F64.with_policy F64.policy_next]. rewrite Hpol.
  split; [reflexivity|]. split; [reflexivity|]. split; [lia|].
  split; [rewrite f64_ucb_scores_length by exact Hl; lia|].
  split; [|split; [lia|now rewrite Nat2Z.id]].
  intros i Hi. rewrite f64_ucb_scores_nth by lia. reflexivity.
Qed.

Lemma f64_ucb_selection_witness :
  exists s0 s wm k s' w' scores,
    F64.UCB_init F64.demo_bandit PrimFloat.one PrimFloat.one = Ok s0 /\
    F64.run F64.demo_log s0 2 F64.demo_world_2 = (Ok s, wm) /\
    F64.run_one_step F64.demo_log s wm = (Ok (k, s'), w') /\
    F64.total_count_of s' = 3 /\
    Z.of_nat (length scores) = 2 /\
    (F64.first_nan scores (Z.to_nat k) \/ F64.first_max scores (Z.to_nat k)).
Proof.
  destruct (@f64_ucb_selection F64.demo_log 2 F64.demo_world F64.demo_world_2
              F64.demo_bandit PrimFloat.one PrimFloat.one 2 F64.demo_world_2
              f64_demo_init)
    as (s0 & s & wm & k & s' & w' & scores & Hnew & Hrun & Hstep & _ & Htot
        & _ & Hlen & _ & _ & Hfm).
  exists s0, s, wm, k, s', w', scores.
  split; [exact Hnew|]. split; [exact Hrun|]. split; [exact Hstep|].
  split; [exact Htot|]. split; [exact Hlen|exact Hfm].
Defined.

(** Rounding decides ties.  With [coef = 1e-20] and prior 1, arm 0 is
    pulled first and rewarded, so both estimates are 1 in round 2; the
    two bonuses differ, but each is absorbed when added to 1, the scores
    are the same float and [np.argmax] returns arm 0 again. *)
Example f64_ucb_tiny_coef_ties :
  exists s0 s w',
    F64.UCB_init F64.demo_bandit F64.tiny_coef PrimFloat.one = Ok s0 /\
    F64.run F64.demo_log s0 2 F64.demo_world_2 = (Ok s, w') /\
    F64.actions s = [0; 0] /\
    F64.counts s = [2; 0].
Proof.
  eexists. eexists. eexists. split; [reflexivity|].
  split; [vm_compute; reflexivity|]. split; reflexivity.
Qed.
